(** * golog: the secret-field redactor and the event hook

    A shallow embedding of [golog.go] (package [golog]): the reflection walk
    [WithCensoredSecretFields] / [censorFields] / [asStruct] / [isFieldSecret]
    and the hook [callerHook.Run].

    Go values live in a heap: a pointer holds an address, so that cyclic data
    ([n.Next = n]) can be written down.  The two loops of the source that are
    not bounded by construction (the dereferencing loop of [asStruct] and the
    recursion of [censorFields]) take a [fuel] argument; running out of it is
    the outcome [OutOfFuel], a panic of the Go runtime is the outcome
    [Panic]. *)

From Stdlib Require Import String Ascii List ZArith Lia Bool Arith PeanoNat.
From Stdlib Require Import DecimalString Relations Wellfounded Sorted.
Import ListNotations.
Local Open Scope list_scope.
Local Open Scope string_scope.

Set Warnings "-register-all".

(** ** Outcomes of a Go computation *)

Inductive outcome (A : Type) : Type :=
| Ret (a : A)
| Panic (msg : string)
| OutOfFuel.

Arguments Ret {A} a.
Arguments Panic {A} msg.
Arguments OutOfFuel {A}.

Definition bind {A B : Type} (m : outcome A) (k : A -> outcome B) : outcome B :=
  match m with
  | Ret a => k a
  | Panic msg => Panic msg
  | OutOfFuel => OutOfFuel
  end.

Notation "x <- m ;; k" := (bind m (fun x => k))
  (at level 61, m at next level, right associativity).

(** A loop [for _, x := range l] that updates [a] with [f a x], left as
    soon as the body panics. *)
Fixpoint foldM {A X : Type} (f : A -> X -> outcome A) (l : list X) (a : A)
  : outcome A :=
  match l with
  | [] => Ret a
  | x :: l' => a' <- f a x ;; foldM f l' a'
  end.

(** The outcome is a result of the program: a value or a panic. *)
Definition settled {A : Type} (o : outcome A) : Prop := o <> OutOfFuel.

(** ** Package reflect (the part of the Go library the walk calls) *)

Module reflect.

Inductive Kind : Set :=
| Invalid | Bool | Int | String | Slice | Map | Interface | Pointer | Struct.

Definition Kind_eqb (a b : Kind) : bool :=
  match a, b with
  | Invalid, Invalid | Bool, Bool | Int, Int | String, String
  | Slice, Slice | Map, Map | Interface, Interface | Pointer, Pointer
  | Struct, Struct => true
  | _, _ => false
  end.

(** A struct tag in the conventional [key:"value" key:"value"] format,
    held parsed; [Get] is [StructTag.Get]: the value of the first pair with
    that key, the empty string when there is none. *)
Definition StructTag := list (string * string).

Fixpoint Get (tag : StructTag) (key : string) : string :=
  match tag with
  | [] => ""
  | (k, v) :: tag' => if String.eqb k key then v else Get tag' key
  end.

(** [reflect.StructField]: [PkgPath] is empty exactly for exported
    (upper-case) field names; [Anonymous] marks an embedded field. *)
Record StructField : Type := {
  Name : string;
  PkgPath : string;
  Tag : StructTag;
  Anonymous : bool
}.

Definition IsExported (f : StructField) : bool := String.eqb (PkgPath f) "".

Definition addr := nat.

(** Go values.  A struct value carries its fields in declaration order,
    each with the [StructField] of its type; a pointer holds an address of
    the heap, or nothing when it is nil. *)
Inductive GoValue : Type :=
| VBool (b : bool)
| VInt (z : Z)
| VString (s : string)
| VSlice (elems : list GoValue)
| VMap (entries : list (GoValue * GoValue))
| VInterface (dyn : option GoValue)
| VPointer (target : option addr)
| VStruct (fields : list (StructField * GoValue)).

(** Every address holds a value: Go has no dangling pointers. *)
Definition Heap := addr -> GoValue.

(** The read-only bits of [reflect.flag]. *)
Record flag : Set := { flagStickyRO : bool; flagEmbedRO : bool }.

Definition flag0 : flag := {| flagStickyRO := false; flagEmbedRO := false |}.
Definition flagRO (fl : flag) : bool := flagStickyRO fl || flagEmbedRO fl.

(** [reflect.Value]; [Zero] is the zero Value [reflect.Value{}]. *)
Inductive Value : Type :=
| Zero
| Val (g : GoValue) (fl : flag).

Inductive RType : Type :=
| TStruct (fields : list StructField)
| TOther (k : Kind).

(** [reflect.ValueOf(i)]: the dynamic value of the interface [i], the zero
    Value for the nil interface. *)
Fixpoint ValueOf (i : GoValue) : Value :=
  match i with
  | VInterface None => Zero
  | VInterface (Some d) => ValueOf d
  | _ => Val i flag0
  end.

Definition kindOf (g : GoValue) : Kind :=
  match g with
  | VBool _ => Bool
  | VInt _ => Int
  | VString _ => String
  | VSlice _ => Slice
  | VMap _ => Map
  | VInterface _ => Interface
  | VPointer _ => Pointer
  | VStruct _ => Struct
  end.

Definition Value_Kind (v : Value) : Kind :=
  match v with
  | Zero => Invalid
  | Val g _ => kindOf g
  end.

(** [v.IsNil()]; a [VSlice] or [VMap] stands for a slice or map that is not
    nil. *)
Definition Value_IsNil (v : Value) : outcome bool :=
  match v with
  | Val (VPointer None) _ | Val (VInterface None) _ => Ret true
  | Val (VPointer (Some _)) _ | Val (VInterface (Some _)) _ => Ret false
  | Val (VSlice _) _ | Val (VMap _) _ => Ret false
  | _ => Panic "reflect: call of reflect.Value.IsNil on non-nillable Value"
  end.

(** [v.Elem()]: the pointee keeps both read-only bits of [v]; the content
    of an interface turns any of them into the sticky one. *)
Definition Value_Elem (h : Heap) (v : Value) : outcome Value :=
  match v with
  | Val (VPointer None) _ => Ret Zero
  | Val (VPointer (Some a)) fl => Ret (Val (h a) fl)
  | Val (VInterface None) _ => Ret Zero
  | Val (VInterface (Some d)) fl =>
      Ret (Val d {| flagStickyRO := flagRO fl; flagEmbedRO := false |})
  | _ => Panic "reflect: call of reflect.Value.Elem on non-pointer Value"
  end.

Definition Value_NumField (v : Value) : outcome nat :=
  match v with
  | Val (VStruct fs) _ => Ret (length fs)
  | _ => Panic "reflect: call of reflect.Value.NumField on non-struct Value"
  end.

(** [v.Field(i)]: inherits the sticky bit and clears the embed bit of [v];
    an unexported field forces one of them. *)
Definition fieldFlag (fl : flag) (f : StructField) : flag :=
  {| flagStickyRO :=
       flagStickyRO fl || (negb (IsExported f) && negb (Anonymous f));
     flagEmbedRO := negb (IsExported f) && Anonymous f |}.

Definition Value_Field (v : Value) (i : nat) : outcome Value :=
  match v with
  | Val (VStruct fs) fl =>
      match nth_error fs i with
      | Some (f, g) => Ret (Val g (fieldFlag fl f))
      | None => Panic "reflect: Field index out of range"
      end
  | _ => Panic "reflect: call of reflect.Value.Field on non-struct Value"
  end.

Definition typeOf (g : GoValue) : RType :=
  match g with
  | VStruct fs => TStruct (map fst fs)
  | _ => TOther (kindOf g)
  end.

Definition Value_Type (v : Value) : outcome RType :=
  match v with
  | Zero => Panic "reflect: call of reflect.Value.Type on zero Value"
  | Val g _ => Ret (typeOf g)
  end.

(** [t.Field(i)] of [reflect.Type]. *)
Definition Type_Field (t : RType) (i : nat) : outcome StructField :=
  match t with
  | TStruct fs =>
      match nth_error fs i with
      | Some f => Ret f
      | None => Panic "reflect: Field index out of bounds"
      end
  | TOther _ => Panic "reflect: Field of non-struct type"
  end.

Definition Value_CanInterface (v : Value) : bool :=
  match v with
  | Zero => false
  | Val _ fl => negb (flagRO fl)
  end.

Definition InterfacePanic : string :=
  "reflect.Value.Interface: cannot return value obtained from unexported field or method".

(** [v.Interface()]: panics on a Value obtained through an unexported
    field. *)
Definition Value_Interface (v : Value) : outcome GoValue :=
  match v with
  | Zero => Panic "reflect: call of reflect.Value.Interface on zero Value"
  | Val g fl => if flagRO fl then Panic InterfacePanic else Ret g
  end.

End reflect.

(** ** Packages ctxerr, runtime and fmt (what the hook calls) *)

Module ctxerr.

(** What [ctxerr.From] returns: the error ([None] is the nil error) and
    the key/value pairs that travel with it. *)
Record CtxErr : Type := {
  Ctx : list (string * reflect.GoValue);
  Err : option string
}.

(** A [context.Context], as far as this package looks into it: the error
    context [ctxerr.Ctx] stored in it, if any. *)
Definition GoContext := option CtxErr.

Definition From (c : GoContext) : CtxErr :=
  match c with
  | Some ec => ec
  | None => {| Ctx := []; Err := None |}
  end.

End ctxerr.

Module runtime.

Record Frame : Type := { file : string; line : Z }.

(** The call stack at a call of [runtime.Caller]: frame 0 is the function
    that calls it, frame 1 that function's caller, and so on. *)
Definition Stack := list Frame.

Definition Caller (st : Stack) (skip : nat) : string * Z * bool :=
  match nth_error st skip with
  | Some fr => (file fr, line fr, true)
  | None => ("", 0%Z, false)
  end.

End runtime.

Module fmt.

(** [strconv.Itoa], the [%d] verb. *)
Definition Itoa (z : Z) : string := NilZero.string_of_int (Z.to_int z).

(** [fmt.Sprintf("%s:%d", s, d)]. *)
Definition Sprintf_s_colon_d (s : string) (d : Z) : string :=
  s ++ ":" ++ Itoa d.

End fmt.

(** ** Package zerolog (the builder calls the package makes) *)

Module zerolog.

(** A field written into a context or an event: the key and what was
    handed over.  [FStr] is a string written as such, [FAny] a Go value
    handed over with its own type for the encoder to serialise, [FErr] an
    error. *)
Inductive Field : Type :=
| FStr (key : string) (val : string)
| FAny (key : string) (i : reflect.GoValue)
| FErr (key : string) (err : string).

(** [zerolog.Context]: the fields accumulated so far, oldest first. *)
Definition Context := list Field.

Definition Context_Str (c : Context) (key val : string) : Context :=
  (c ++ [FStr key val])%list.

Definition Context_Any (c : Context) (key : string) (i : reflect.GoValue)
  : Context :=
  (c ++ [FAny key i])%list.

(** [*zerolog.Event]: the fields written so far and the [context.Context]
    the event carries ([e.Ctx(...)], read back by [e.GetCtx()]). *)
Record Event : Type := {
  fields : list Field;
  goctx : ctxerr.GoContext
}.

Definition Event_GetCtx (e : Event) : ctxerr.GoContext := goctx e.

Definition write (e : Event) (fs : list Field) : Event :=
  {| fields := (fields e ++ fs)%list; goctx := goctx e |}.

(** [e.Fields(m)] for a [map[string]any], given as its pairs in the key
    order zerolog writes them in. *)
Definition Event_Fields (e : Event) (m : list (string * reflect.GoValue))
  : Event :=
  write e (map (fun kv => FAny (fst kv) (snd kv)) m).

Definition ErrorFieldName : string := "error".

(** [e.Err(err)] for a non-nil error with message [err]. *)
Definition Event_Err (e : Event) (err : string) : Event :=
  write e [FErr ErrorFieldName err].

Definition Event_Str (e : Event) (key val : string) : Event :=
  write e [FStr key val].

Definition Level := Z.
Definition DebugLevel : Level := 0%Z.
Definition InfoLevel : Level := 1%Z.
Definition WarnLevel : Level := 2%Z.
Definition ErrorLevel : Level := 3%Z.
Definition FatalLevel : Level := 4%Z.
Definition PanicLevel : Level := 5%Z.
Definition NoLevel : Level := 6%Z.
Definition Disabled : Level := 7%Z.
Definition TraceLevel : Level := (-1)%Z.

End zerolog.

(** ** Package golog *)

Import reflect.

(** [const CensoredFieldPlaceholder = "***"] *)
Definition CensoredFieldPlaceholder : string := "***".

(** [isFieldSecret]: [f.Tag.Get("secret") != ""]. *)
Definition isFieldSecret (f : StructField) : bool :=
  negb (String.eqb (Get (Tag f) "secret") "").

(** [asStruct]: one unit of fuel per test of the loop condition. *)
Fixpoint asStruct (fuel : nat) (h : Heap) (v : Value) : outcome (Value * bool) :=
  match fuel with
  | O => OutOfFuel
  | S fuel' =>
      if Kind_eqb (Value_Kind v) Pointer then
        isNil <- Value_IsNil v ;;
        if (isNil : bool) then Ret (Zero, false)
        else (e <- Value_Elem h v ;; asStruct fuel' h e)
      else if negb (Kind_eqb (Value_Kind v) Struct) then Ret (Zero, false)
      else Ret (v, true)
  end.

(** The body of the loop of [censorFields] at index [i]; [recur] is the
    recursive call. *)
Definition censorField
    (recur : zerolog.Context -> string -> Value -> outcome zerolog.Context)
    (fuel : nat) (h : Heap) (path : string) (v : Value) (vType : RType)
    (ctx : zerolog.Context) (i : nat) : outcome zerolog.Context :=
  fieldType <- Type_Field vType i ;;
  fieldValue <- Value_Field v i ;;
  r <- asStruct fuel h fieldValue ;;
  if snd r then recur ctx ((path ++ ".") ++ Name fieldType) (fst r)
  else
    let fieldPath := (path ++ ".") ++ Name fieldType in
    if isFieldSecret fieldType then
      Ret (zerolog.Context_Str ctx fieldPath CensoredFieldPlaceholder)
    else
      x <- Value_Interface fieldValue ;;
      Ret (zerolog.Context_Any ctx fieldPath x).

(** [censorFields]: one unit of fuel per level of recursion. *)
Fixpoint censorFields (fuel : nat) (h : Heap) (ctx : zerolog.Context)
    (path : string) (v : Value) : outcome zerolog.Context :=
  match fuel with
  | O => OutOfFuel
  | S fuel' =>
      r <- asStruct fuel' h v ;;
      if negb (snd r) then Ret ctx
      else
        vType <- Value_Type (fst r) ;;
        n <- Value_NumField (fst r) ;;
        foldM (censorField (censorFields fuel' h) fuel' h path (fst r) vType)
              (seq 0 n) ctx
  end.

Definition WithCensoredSecretFields (fuel : nat) (h : Heap)
    (ctx : zerolog.Context) (rootName : string) (v : GoValue)
  : outcome zerolog.Context :=
  censorFields fuel h ctx rootName (ValueOf v).

(** [callerHook.Run]; [st] is the call stack at the call of
    [runtime.Caller], frame 0 being [Run] itself. *)
Definition callerHook_Run (st : runtime.Stack) (e : zerolog.Event)
    (level : zerolog.Level) (msg : string) : zerolog.Event :=
  let errCtx := ctxerr.From (zerolog.Event_GetCtx e) in
  let e :=
    match ctxerr.Err errCtx with
    | Some err =>
        zerolog.Event_Err (zerolog.Event_Fields e (ctxerr.Ctx errCtx)) err
    | None => e
    end in
  if (level =? zerolog.ErrorLevel)%Z || (level =? zerolog.FatalLevel)%Z
     || (level =? zerolog.PanicLevel)%Z
  then
    let '(file, line, ok) := runtime.Caller st 3 in
    if (ok : bool) then
      zerolog.Event_Str e "file" (fmt.Sprintf_s_colon_d file line)
    else e
  else e.

(** ** Building blocks of the examples *)

(** An exported field, an unexported field of package [main], the tag
    [secret:"true"], a heap without anything of interest. *)
Definition field (name : string) (tag : StructTag) (g : GoValue)
  : StructField * GoValue :=
  ({| Name := name; PkgPath := ""; Tag := tag; Anonymous := false |}, g).

Definition unexported (name : string) (tag : StructTag) (g : GoValue)
  : StructField * GoValue :=
  ({| Name := name; PkgPath := "main"; Tag := tag; Anonymous := false |}, g).

Definition secret : StructTag := [("secret", "true")].

Definition emptyHeap : Heap := fun _ => VInt 0.

(** ** The loop body, field by field *)

(** The loop body at a field [(f, g)] of a struct Value with flag [fl]:
    [censorField] on the struct of that one field. *)
Definition walkField
    (recur : zerolog.Context -> string -> Value -> outcome zerolog.Context)
    (fuel : nat) (h : Heap) (path : string) (fl : flag)
    (ctx : zerolog.Context) (fg : StructField * GoValue)
  : outcome zerolog.Context :=
  censorField recur fuel h path (Val (VStruct [fg]) fl) (TStruct [fst fg]) ctx 0.

(** ** The leaf fields of a value

    A leaf is a field that the walk does not descend into: its value does
    not normalize to a struct.  [leaves] lists the leaves under a Value in
    the order of the declarations, the fields of a nested struct in the place
    of the field that holds it, each leaf with the chain of declared field
    names that leads to it, and with the value and the flag of the Value
    that [v.Field(i)] gives for it. *)

Record Leaf : Type := {
  leafNames : list string;
  leafField : StructField;
  leafValue : GoValue;
  leafFlag : flag
}.

Definition under (name : string) (l : Leaf) : Leaf :=
  {| leafNames := name :: leafNames l;
     leafField := leafField l;
     leafValue := leafValue l;
     leafFlag := leafFlag l |}.

Fixpoint concatM {X Y : Type} (f : X -> outcome (list Y)) (l : list X)
  : outcome (list Y) :=
  match l with
  | [] => Ret []
  | x :: l' => ys <- f x ;; rest <- concatM f l' ;; Ret (ys ++ rest)%list
  end.

Definition fieldLeaves (recur : Value -> outcome (list Leaf))
    (fuel : nat) (h : Heap) (fl : flag) (fg : StructField * GoValue)
  : outcome (list Leaf) :=
  r <- asStruct fuel h (Val (snd fg) (fieldFlag fl (fst fg))) ;;
  if snd r then
    ls <- recur (fst r) ;; Ret (map (under (Name (fst fg))) ls)
  else
    Ret [{| leafNames := [Name (fst fg)];
            leafField := fst fg;
            leafValue := snd fg;
            leafFlag := fieldFlag fl (fst fg) |}].

Fixpoint leaves (fuel : nat) (h : Heap) (v : Value) : outcome (list Leaf) :=
  match fuel with
  | O => OutOfFuel
  | S fuel' =>
      r <- asStruct fuel' h v ;;
      match r with
      | (Val (VStruct fs) fl, true) =>
          concatM (fieldLeaves (leaves fuel' h) fuel' h fl) fs
      | _ => Ret []
      end
  end.

(** [root.Outer.Inner]: the root label, then a dot and a name per level. *)
Fixpoint dotted (names : list string) : string :=
  match names with
  | [] => ""
  | n :: names' => "." ++ n ++ dotted names'
  end.

Definition fieldPath (root : string) (names : list string) : string :=
  root ++ dotted names.

(** What the walk writes for a leaf. *)
Definition emit (root : string) (ctx : zerolog.Context) (l : Leaf)
  : outcome zerolog.Context :=
  if isFieldSecret (leafField l) then
    Ret (zerolog.Context_Str ctx (fieldPath root (leafNames l))
           CensoredFieldPlaceholder)
  else
    x <- Value_Interface (Val (leafValue l) (leafFlag l)) ;;
    Ret (zerolog.Context_Any ctx (fieldPath root (leafNames l)) x).

(** [refers h v w]: the Value [w] is what a pointer [v] points to, or a
    field of the struct [v]. *)
Inductive refers (h : Heap) : Value -> Value -> Prop :=
| refers_elem a fl :
    refers h (Val (VPointer (Some a)) fl) (Val (h a) fl)
| refers_field fs fl f g :
    In (f, g) fs ->
    refers h (Val (VStruct fs) fl) (Val g (fieldFlag fl f)).

(** No infinite chain of references starts at [v]. *)
Definition acyclic (h : Heap) (v : Value) : Prop :=
  Acc (transp Value (refers h)) v.

(** ** Notions the properties are stated with *)

(** The walk can take the value of the leaf out: the leaf is marked (its
    value is not asked for), or its Value is not read-only. *)
Definition readable (l : Leaf) : bool :=
  isFieldSecret (leafField l)
  || Value_CanInterface (Val (leafValue l) (leafFlag l)).

Definition isSecretLeaf (l : Leaf) : bool := isFieldSecret (leafField l).

(** The entry of a leaf: the placeholder for a marked leaf, the value
    itself for any other. *)
Definition entry (root : string) (l : Leaf) : zerolog.Field :=
  if isFieldSecret (leafField l) then
    zerolog.FStr (fieldPath root (leafNames l)) CensoredFieldPlaceholder
  else
    zerolog.FAny (fieldPath root (leafNames l)) (leafValue l).

Definition fieldKey (e : zerolog.Field) : string :=
  match e with
  | zerolog.FStr key _ | zerolog.FAny key _ | zerolog.FErr key _ => key
  end.

(** The entry was written by the redacting branch: the placeholder, as a
    string. *)
Definition isRedaction (e : zerolog.Field) : bool :=
  match e with
  | zerolog.FStr _ val => String.eqb val CensoredFieldPlaceholder
  | _ => false
  end.

(** The value of the entry is the placeholder string, whichever call wrote
    it. *)
Definition holdsPlaceholder (e : zerolog.Field) : bool :=
  match e with
  | zerolog.FStr _ val => String.eqb val CensoredFieldPlaceholder
  | zerolog.FAny _ (VString val) => String.eqb val CensoredFieldPlaceholder
  | _ => false
  end.

(** The value of the entry is [g]. *)
Definition holdsValue (e : zerolog.Field) (g : GoValue) : Prop :=
  match e with
  | zerolog.FStr _ val => g = VString val
  | zerolog.FAny _ i => g = i
  | zerolog.FErr _ _ => False
  end.

(** A traversal dead-end: a nil pointer at some level of dereferencing, or,
    behind the pointers, a value that is not a struct. *)
Inductive deadEnd (h : Heap) : Value -> Prop :=
| deadEnd_nil fl : deadEnd h (Val (VPointer None) fl)
| deadEnd_kind v :
    Value_Kind v <> Pointer -> Value_Kind v <> Struct -> deadEnd h v
| deadEnd_elem a fl :
    deadEnd h (Val (h a) fl) -> deadEnd h (Val (VPointer (Some a)) fl).

(** [pointsTo h p n r]: [p] is [r] behind [n] levels of non-nil pointers. *)
Fixpoint pointsTo (h : Heap) (p : GoValue) (n : nat) (r : GoValue) : Prop :=
  match n with
  | O => p = r
  | S n' => exists a, p = VPointer (Some a) /\ pointsTo h (h a) n' r
  end.








(** [leafAt h v idx l]: from the record [v], taking at each nesting level
    the field whose index [idx] gives for that level, one arrives at the
    leaf [l]; the names of [l] are the declared names of the fields taken,
    one per level. *)
Inductive leafAt (h : Heap) : Value -> list nat -> Leaf -> Prop :=
| leafAt_here v fuel fs fl i f g :
    asStruct fuel h v = Ret (Val (VStruct fs) fl, true) ->
    nth_error fs i = Some (f, g) ->
    deadEnd h (Val g (fieldFlag fl f)) ->
    leafAt h v [i]
           {| leafNames := [Name f]; leafField := f;
              leafValue := g; leafFlag := fieldFlag fl f |}
| leafAt_below v fuel fs fl i f g idx l :
    asStruct fuel h v = Ret (Val (VStruct fs) fl, true) ->
    nth_error fs i = Some (f, g) ->
    leafAt h (Val g (fieldFlag fl f)) idx l ->
    leafAt h v (i :: idx) (under (Name f) l).

(** Declaration order, level by level: at the first level where the two
    index lists differ, the first one has the smaller index. *)
Fixpoint declaredBefore (a b : list nat) : Prop :=
  match a, b with
  | i :: a', j :: b' => i < j \/ (i = j /\ declaredBefore a' b')
  | _, _ => False
  end.

(** ** Inputs of the examples *)

(** [time.Time], as far as the walk sees it: a struct of three unexported
    fields. *)
Definition timeTime : GoValue :=
  VStruct [unexported "wall" [] (VInt 0);
           unexported "ext" [] (VInt 0);
           unexported "loc" [] (VPointer None)].

(** The example of the documentation:
    [Config{Username: "admin", Password: "s3cr3t"}], [Password] marked. *)
Definition docConfig : GoValue :=
  VStruct [field "Username" [("json", "username")] (VString "admin");
           field "Password" (("json", "password") :: secret) (VString "s3cr3t")].

(** A record with one marked field and two unmarked ones, one holding the
    same string as the marked one and one holding the placeholder. *)
Definition leakyRecord : GoValue :=
  VStruct [field "Token" secret (VString "s3cr3t");
           field "Hint" [] (VString "s3cr3t");
           field "Mask" [] (VString "***")].

(** The count property as the specification words it, for the value [v]
    walked under [root] from the empty accumulator: as many entries hold the
    placeholder as there are marked leaves, and no entry holds the value of
    a marked leaf. *)
Definition placeholderCountClaim (h : Heap) (root : string) (v : GoValue)
  : Prop :=
  forall fuel ls ctx',
    leaves fuel h (ValueOf v) = Ret ls ->
    WithCensoredSecretFields fuel h [] root v = Ret ctx' ->
    length (filter holdsPlaceholder ctx') = length (filter isSecretLeaf ls)
    /\ (forall l e, In l ls -> isSecretLeaf l = true -> In e ctx' ->
                    ~ holdsValue e (leafValue l)).

(** The second scenario of the specification:
    [{Name: "root", Level2: nil}], [Level2] a nil pointer to a struct. *)
Definition nilNested : list (StructField * GoValue) :=
  [field "Name" [] (VString "root"); field "Level2" [] (VPointer None)].

(** The dead-end property as the specification words it, for the fields of
    the record [VStruct fs] walked under [root] from the empty accumulator:
    a field that is a dead end leaves no entry at its path. *)
Definition deadEndSilentClaim (h : Heap) (root : string)
    (fs : list (StructField * GoValue)) : Prop :=
  forall f g, In (f, g) fs -> deadEnd h (Val g (fieldFlag flag0 f)) ->
  forall fuel ctx',
    WithCensoredSecretFields fuel h [] root (VStruct fs) = Ret ctx' ->
    forall e, In e ctx' -> fieldKey e <> (root ++ ".") ++ Name f.

(** [docConfig] behind a pointer to a pointer: address 0 holds a pointer to
    address 1, address 1 holds the record. *)
Definition twoHops : Heap :=
  fun a => match a with
           | O => VPointer (Some 1)
           | _ => docConfig
           end.

(** The event after the first step of the hook: with an error in the
    error context, the pairs of the context and then the error under
    ["error"]; without one, the event as it was. *)
Definition withErrCtx (e : zerolog.Event) : zerolog.Event :=
  match ctxerr.Err (ctxerr.From (zerolog.Event_GetCtx e)) with
  | Some err =>
      zerolog.Event_Err
        (zerolog.Event_Fields e (ctxerr.Ctx (ctxerr.From (zerolog.Event_GetCtx e))))
        err
  | None => e
  end.

(** The third scenario of the specification: an event that carries an
    error context with the error ["boom"] and [{"manifest": "x"}], and a
    call stack of five frames. *)
Definition failingEvent : zerolog.Event :=
  {| zerolog.fields := [];
     zerolog.goctx :=
       Some {| ctxerr.Ctx := [("manifest", VString "x")];
               ctxerr.Err := Some "boom" |} |}.

Definition plainEvent : zerolog.Event :=
  {| zerolog.fields := []; zerolog.goctx := None |}.

Definition someStack : runtime.Stack :=
  [ {| runtime.file := "golog.go"; runtime.line := 83 |};
    {| runtime.file := "event.go"; runtime.line := 150 |};
    {| runtime.file := "event.go"; runtime.line := 120 |};
    {| runtime.file := "main.go"; runtime.line := 42 |};
    {| runtime.file := "proc.go"; runtime.line := 250 |} ].

(** The deep-nesting test: [cfg := &Level1{...}], the record [Level1] at
    address 0, [Level2] at address 1, [Level3] at address 2. *)
Definition deepHeap : Heap :=
  fun a =>
    match a with
    | 0 => VStruct [field "Name" [("json", "name")] (VString "root");
                    field "Level2" [("json", "level2")] (VPointer (Some 1));
                    field "Token" (("json", "token") :: secret)
                          (VString "secret_token")]
    | 1 => VStruct [field "Info" [("json", "info")] (VString "middle");
                    field "Level3" [("json", "level3")] (VPointer (Some 2))]
    | _ => VStruct [field "Data" [("json", "data")] (VString "deep_data");
                    field "Secret" (("json", "secret") :: secret)
                          (VString "deep_secret")]
    end.

(** A record whose record-valued field [Creds] is itself marked. *)
Definition markedCreds : list (StructField * GoValue) :=
  [field "Creds" secret
         (VStruct [field "User" [] (VString "admin");
                   field "Pass" [] (VString "hunter2")])].

(** [TestWithCensoredSecretFields]: the [SubStruct] that [SubConfig] points
    to is at address 0. *)
Definition testHeap : Heap :=
  fun _ => VStruct [field "PublicField" [("json", "public")] (VString "visible");
                    field "SecretField" (("json", "secret") :: secret)
                          (VString "hidden")].

Definition testConfig (sub : option addr) : GoValue :=
  VStruct [field "Username" [("json", "username")] (VString "admin");
           field "Password" (("json", "password") :: secret)
                 (VString "super_secret_password");
           field "APIKey" (("json", "api_key") :: secret)
                 (VString "sk_test_1234567890");
           field "SubConfig" [("json", "sub_config")] (VPointer sub);
           field "PublicData" [("json", "public_data")] (VString "this is public")].

(** ** Package golog: the configuration functions *)

Module os.

Inductive File : Set := Stdout | Stderr.

End os.

(** An [io.Writer] as [New] can be handed one: the nil interface, a file of
    package [os], any other writer (a [*bytes.Buffer], say), or a
    [zerolog.ConsoleWriter] with its fields [Out] and [TimeFormat]. *)
Inductive Writer : Type :=
| WNil
| WFile (f : os.File)
| WOther (id : nat)
| ConsoleWriter (Out : Writer) (TimeFormat : string).

(** The hooks the package registers. *)
Inductive Hook : Set := callerHook.

(** A [zerolog.Logger], as far as [New] builds it: the writer, whether the
    context stamps the time, and the hooks in the order they were added. *)
Record Logger : Type := {
  logWriter : Writer;
  logTimestamp : bool;
  logHooks : list Hook
}.

Definition zerolog_New (w : Writer) : Logger :=
  {| logWriter := w; logTimestamp := false; logHooks := [] |}.

(** [l.With().Timestamp().Logger()] *)
Definition Logger_WithTimestamp (l : Logger) : Logger :=
  {| logWriter := logWriter l; logTimestamp := true; logHooks := logHooks l |}.

Definition Logger_Hook (l : Logger) (hk : Hook) : Logger :=
  {| logWriter := logWriter l;
     logTimestamp := logTimestamp l;
     logHooks := (logHooks l ++ [hk])%list |}.

(** The package variables of zerolog that the package sets: the global
    level and [zerolog.TimeFieldFormat]. *)
Record Globals : Type := {
  GlobalLevel : zerolog.Level;
  TimeFieldFormat : string
}.

(** [New(consoleWriter, out)], reading [zerolog.TimeFieldFormat] from [g]. *)
Definition New (consoleWriter : bool) (out : Writer) (g : Globals) : Logger :=
  let out := match out with
             | WNil => WFile os.Stdout
             | _ => out
             end in
  let out := if consoleWriter
             then ConsoleWriter out (TimeFieldFormat g)
             else out in
  Logger_Hook (Logger_WithTimestamp (zerolog_New out)) callerHook.

(** [New(consoleWriter)] of the earlier revision of the file. *)
Definition New_v1 (consoleWriter : bool) (g : Globals) : Logger :=
  let out := WFile os.Stdout in
  let out := if consoleWriter
             then ConsoleWriter (WFile os.Stdout) (TimeFieldFormat g)
             else out in
  Logger_Hook (Logger_WithTimestamp (zerolog_New out)) callerHook.

(** [var logLevels = map[string]zerolog.Level{...}] *)
Definition logLevels : list (string * zerolog.Level) :=
  [("trace", zerolog.TraceLevel);
   ("debug", zerolog.DebugLevel);
   ("info", zerolog.InfoLevel);
   ("warn", zerolog.WarnLevel);
   ("error", zerolog.ErrorLevel);
   ("fatal", zerolog.FatalLevel);
   ("panic", zerolog.PanicLevel);
   ("disabled", zerolog.Disabled)].

(** [m[k]] on a Go map: the zero value, level 0, when the key is absent. *)
Fixpoint mapIndex (m : list (string * zerolog.Level)) (k : string)
  : zerolog.Level :=
  match m with
  | [] => 0%Z
  | (k', lv) :: m' => if String.eqb k' k then lv else mapIndex m' k
  end.

(** [SetLogLevel(l)]: [zerolog.SetGlobalLevel(logLevels[l])]. *)
Definition SetLogLevel (l : string) (g : Globals) : Globals :=
  {| GlobalLevel := mapIndex logLevels l;
     TimeFieldFormat := TimeFieldFormat g |}.

(** [SetTimeFormat(format)]: [zerolog.TimeFieldFormat = format]. *)
Definition SetTimeFormat (format : string) (g : Globals) : Globals :=
  {| GlobalLevel := GlobalLevel g; TimeFieldFormat := format |}.

(** ** More notions for the walk *)

(** Every field under [v] is exported, except for embedded fields that
    hold a struct or lead to one through pointers none of which is nil
    ([asStruct] answers [true] on them: an embedded pointer that is nil is
    a leaf, not covered here); and [v] itself does not carry the sticky
    read-only bit. *)
Definition exportedOrEmbedded (h : Heap) (v : Value) : Prop :=
  match v with
  | Zero => True
  | Val _ fl => flagStickyRO fl = false
  end
  /\ forall fs fl,
       clos_refl_trans Value (refers h) v (Val (VStruct fs) fl) ->
       forall f g, In (f, g) fs ->
         IsExported f = true
         \/ (Anonymous f = true
             /\ exists fuel s,
                 asStruct fuel h (Val g (fieldFlag fl f)) = Ret (s, true)).

(** The value is a slice, a map or an interface value. *)
Definition isContainer (g : GoValue) : bool :=
  match g with
  | VSlice _ | VMap _ | VInterface _ => true
  | _ => false
  end.

(** The string holds no dot, as every Go identifier. *)
Fixpoint dotFree (s : string) : bool :=
  match s with
  | EmptyString => true
  | String.String c s' => negb (Ascii.eqb c ".") && dotFree s'
  end.

(** The rules of Go for the fields of a struct type, for every struct
    under [v]: the names are identifiers, and no two fields of a struct
    have the same name. *)
Definition wellNamed (h : Heap) (v : Value) : Prop :=
  forall fs fl,
    clos_refl_trans Value (refers h) v (Val (VStruct fs) fl) ->
    NoDup (map (fun fg => Name (fst fg)) fs)
    /\ Forall (fun fg => dotFree (Name (fst fg)) = true) fs.

(** ** More inputs of examples *)

(** A slice of two records, each with a marked field, as one would put in
    [Items []Item]. *)
Definition secretItems : GoValue :=
  VSlice [VStruct [field "Name" [] (VString "a");
                   field "Key" secret (VString "k1")];
          VStruct [field "Name" [] (VString "b");
                   field "Key" secret (VString "k2")]].

(** [type P *P; var p P; p = &p]: address 0 holds a pointer to address 0. *)
Definition pointerLoop : Heap := fun _ => VPointer (Some 0).

(** An embedded field of an unexported struct type [base]. *)
Definition embedded (name : string) (g : GoValue) : StructField * GoValue :=
  ({| Name := name; PkgPath := "main"; Tag := []; Anonymous := true |}, g).

(** [struct{ base; Name string }] with [type base struct{ ID int }]. *)
Definition withEmbedded : list (StructField * GoValue) :=
  [embedded "base" (VStruct [field "ID" [] (VInt 7)]);
   field "Name" [] (VString "n")].

(** The value of a named field [b base] of the unexported struct type
    [base struct{ ID int; Key string `secret:"true"` }]. *)
Definition namedBase : StructField * GoValue :=
  unexported "b" [] (VStruct [field "ID" [] (VInt 7);
                              field "Key" secret (VString "k")]).

(** [testConfig] with the [SubStruct] held by value instead of by
    pointer. *)
Definition inlineSub : GoValue := testHeap 0.

Definition someGlobals : Globals :=
  {| GlobalLevel := zerolog.InfoLevel;
     TimeFieldFormat := "2006-01-02T15:04:05.999999999Z07:00" |}.

(** ** The outcome monad *)

Lemma settled_Ret {A : Type} (a : A) : settled (Ret a).
Proof. discriminate. Qed.

Lemma settled_Panic {A : Type} (msg : string) : settled (@Panic A msg).
Proof. discriminate. Qed.

Create HintDb outcome.
#[global] Hint Resolve settled_Ret settled_Panic : outcome.

Lemma bind_settled {A B : Type} (m : outcome A) (k : A -> outcome B) :
  settled (bind m k) -> settled m.
Proof.
  destruct m; simpl; intros H; unfold settled in *; try discriminate.
  now elim H.
Qed.

Lemma bind_Ret_inv {A B : Type} (m : outcome A) (k : A -> outcome B) (b : B) :
  bind m k = Ret b -> exists a, m = Ret a /\ k a = Ret b.
Proof. destruct m; simpl; intros H; try discriminate. eauto. Qed.

Lemma foldM_app {A X : Type} (f : A -> X -> outcome A) (l1 l2 : list X) (a : A) :
  foldM f (l1 ++ l2)%list a = (a' <- foldM f l1 a ;; foldM f l2 a').
Proof.
  revert a. induction l1 as [|x l1 IH]; intros a; simpl; [reflexivity|].
  destruct (f a x); simpl; auto.
Qed.

(** Two loop bodies that agree wherever the first one settles give loops
    that agree wherever the first one settles. *)
Lemma foldM_settled_ext {A X : Type} (f g : A -> X -> outcome A) (l : list X) :
  (forall a x, In x l -> settled (f a x) -> g a x = f a x) ->
  forall a, settled (foldM f l a) -> foldM g l a = foldM f l a.
Proof.
  induction l as [|x l IH]; intros Hfg a Hs; simpl in *; [reflexivity|].
  assert (Hx : settled (f a x)) by (eapply bind_settled; eauto).
  rewrite (Hfg a x (or_introl eq_refl) Hx).
  destruct (f a x) as [a'| |]; simpl in *; auto.
Qed.


(** A loop that panics does so in its body at some element. *)
Lemma foldM_Panic_In {A X : Type} (f : A -> X -> outcome A) (l : list X) :
  forall a msg, foldM f l a = Panic msg ->
  exists a' x, In x l /\ f a' x = Panic msg.
Proof.
  induction l as [|y l IH]; intros a msg Hf; [discriminate|].
  simpl in Hf. destruct (f a y) as [a1| |] eqn:Ey; simpl in Hf.
  - destruct (IH _ _ Hf) as (a' & x & Hin & Hx). exists a', x. auto with datatypes.
  - injection Hf as <-. exists a, y. auto with datatypes.
  - discriminate.
Qed.

(** The loop over the indices [0 .. n-1] of a list is the loop over its
    elements. *)
Lemma foldM_seq_nth {A X : Type} (d : nat -> A -> outcome A)
    (f : A -> X -> outcome A) (pre l : list X) :
  (forall i x a, nth_error (pre ++ l)%list i = Some x -> d i a = f a x) ->
  forall a, foldM (fun a i => d i a) (seq (length pre) (length l)) a = foldM f l a.
Proof.
  revert pre. induction l as [|x l IH]; intros pre Hd a; simpl; [reflexivity|].
  rewrite (Hd (length pre) x a).
  - destruct (f a x) as [a'| |]; simpl; auto.
    specialize (IH (pre ++ [x])%list).
    rewrite length_app in IH. simpl in IH. rewrite Nat.add_1_r in IH.
    apply IH. intros i y b Hi. apply Hd. now rewrite <- app_assoc in Hi.
  - rewrite nth_error_app2 by lia. now rewrite Nat.sub_diag.
Qed.

(** ** asStruct *)

Lemma asStruct_unfold fuel h v :
  asStruct (S fuel) h v =
  match v with
  | Val (VPointer None) _ => Ret (Zero, false)
  | Val (VPointer (Some a)) fl => asStruct fuel h (Val (h a) fl)
  | Val (VStruct _) _ => Ret (v, true)
  | _ => Ret (Zero, false)
  end.
Proof. destruct v as [|[] fl]; try reflexivity. destruct target; reflexivity. Qed.

(** None of the reflect calls of [asStruct] can panic: each is guarded by
    the kind test before it. *)
Lemma asStruct_no_panic fuel h v msg : asStruct fuel h v <> Panic msg.
Proof.
  revert v. induction fuel as [|n IH]; intros v; [discriminate|].
  rewrite asStruct_unfold.
  destruct v as [|[| | | | | |[a|]|] fl]; try discriminate. apply IH.
Qed.

Lemma asStruct_mono fuel fuel' h v :
  fuel <= fuel' -> settled (asStruct fuel h v) ->
  asStruct fuel' h v = asStruct fuel h v.
Proof.
  revert fuel' v. induction fuel as [|n IH]; intros m v Hle Hs.
  - now elim Hs.
  - destruct m as [|m]; [lia|]. rewrite !asStruct_unfold in *.
    destruct v as [|[| | | | | |[a|]|] fl]; try reflexivity.
    apply IH; [lia|assumption].
Qed.

(** What [asStruct] returns: a struct Value with [true], the zero Value with
    [false]. *)
Lemma asStruct_true fuel h v s :
  asStruct fuel h v = Ret (s, true) ->
  exists fs fl, s = Val (VStruct fs) fl.
Proof.
  revert v. induction fuel as [|n IH]; intros v; [discriminate|].
  rewrite asStruct_unfold.
  destruct v as [|[| | | | | |[a|]|] fl]; try discriminate; eauto.
  intros [= <-]. eauto.
Qed.

Lemma asStruct_false fuel h v s :
  asStruct fuel h v = Ret (s, false) -> s = Zero.
Proof.
  revert v. induction fuel as [|n IH]; intros v; [discriminate|].
  rewrite asStruct_unfold.
  destruct v as [|[| | | | | |[a|]|] fl]; try discriminate; eauto;
    now intros [= <-].
Qed.

(** A struct Value normalizes to itself. *)
Lemma asStruct_struct fuel h fs fl :
  asStruct (S fuel) h (Val (VStruct fs) fl) = Ret (Val (VStruct fs) fl, true).
Proof. reflexivity. Qed.

(** Normalizing twice is normalizing once. *)
Lemma asStruct_idem fuel h v s :
  asStruct fuel h v = Ret (s, true) -> asStruct fuel h s = Ret (s, true).
Proof.
  intros H. destruct (asStruct_true _ _ _ _ H) as (fs & fl & ->).
  destruct fuel; [discriminate|]. reflexivity.
Qed.

(** ** censorFields: the loop over the fields *)

Lemma censorField_nth recur fuel h path fs fl ctx i fg :
  nth_error fs i = Some fg ->
  censorField recur fuel h path (Val (VStruct fs) fl) (TStruct (map fst fs)) ctx i
  = walkField recur fuel h path fl ctx fg.
Proof.
  intros Hi. unfold walkField, censorField. simpl.
  rewrite nth_error_map, Hi. destruct fg as [f g]. reflexivity.
Qed.

Lemma walkField_unfold recur fuel h path fl ctx f g :
  walkField recur fuel h path fl ctx (f, g) =
  (r <- asStruct fuel h (Val g (fieldFlag fl f)) ;;
   if snd r then recur ctx ((path ++ ".") ++ Name f) (fst r)
   else if isFieldSecret f then
     Ret (zerolog.Context_Str ctx ((path ++ ".") ++ Name f) CensoredFieldPlaceholder)
   else
     x <- Value_Interface (Val g (fieldFlag fl f)) ;;
     Ret (zerolog.Context_Any ctx ((path ++ ".") ++ Name f) x)).
Proof. reflexivity. Qed.

(** On a Value that normalizes to the struct with fields [fs], the walk is
    the loop of [walkField] over [fs] in declaration order. *)
Lemma censorFields_struct fuel h ctx path v fs fl :
  asStruct fuel h v = Ret (Val (VStruct fs) fl, true) ->
  censorFields (S fuel) h ctx path v
  = foldM (walkField (censorFields fuel h) fuel h path fl) fs ctx.
Proof.
  intros Hs. simpl. rewrite Hs. simpl.
  apply (foldM_seq_nth
           (fun i a => censorField (censorFields fuel h) fuel h path
                         (Val (VStruct fs) fl) (TStruct (map fst fs)) a i)
           (walkField (censorFields fuel h) fuel h path fl) [] fs).
  intros i x a Hi. now apply censorField_nth.
Qed.

Lemma censorFields_deadend fuel h ctx path v s :
  asStruct fuel h v = Ret (s, false) ->
  censorFields (S fuel) h ctx path v = Ret ctx.
Proof. intros Hs. simpl. now rewrite Hs. Qed.

Lemma censorFields_asStruct_settled fuel h ctx path v :
  settled (censorFields (S fuel) h ctx path v) -> settled (asStruct fuel h v).
Proof. simpl. apply bind_settled. Qed.

(** More fuel does not change a settled outcome. *)
Lemma censorFields_mono fuel :
  forall fuel' h ctx path v,
    fuel <= fuel' -> settled (censorFields fuel h ctx path v) ->
    censorFields fuel' h ctx path v = censorFields fuel h ctx path v.
Proof.
  induction fuel as [|n IH]; intros m h ctx path v Hle Hs; [now elim Hs|].
  destruct m as [|m]; [lia|].
  pose proof (censorFields_asStruct_settled _ _ _ _ _ Hs) as Ha.
  assert (Hm : asStruct m h v = asStruct n h v)
    by (apply asStruct_mono; [lia|assumption]).
  destruct (asStruct n h v) as [[s [|]]| |] eqn:E.
  - destruct (asStruct_true _ _ _ _ E) as (fs & fl & ->).
    rewrite (censorFields_struct _ _ _ _ _ _ _ Hm).
    rewrite (censorFields_struct _ _ _ _ _ _ _ E) in Hs |- *.
    apply foldM_settled_ext; [|assumption].
    intros a [f g] _. rewrite !walkField_unfold. intros Hx.
    pose proof (bind_settled _ _ Hx) as Hx'.
    rewrite (asStruct_mono n m) by (lia || assumption).
    destruct (asStruct n h (Val g (fieldFlag fl f))) as [[s' [|]]| |];
      simpl in *; auto.
    apply IH; [lia|assumption].
  - rewrite (censorFields_deadend _ _ _ _ _ _ Hm).
    now rewrite (censorFields_deadend _ _ _ _ _ _ E).
  - now elim (asStruct_no_panic _ _ _ _ E).
  - now elim Ha.
Qed.

Lemma WithCensoredSecretFields_mono fuel fuel' h ctx rootName v :
  fuel <= fuel' -> settled (WithCensoredSecretFields fuel h ctx rootName v) ->
  WithCensoredSecretFields fuel' h ctx rootName v
  = WithCensoredSecretFields fuel h ctx rootName v.
Proof. apply censorFields_mono. Qed.

(** The only panic the walk can raise is the one of [Value.Interface]:
    every other reflect call is guarded. *)
Lemma censorFields_panic fuel :
  forall h ctx path v msg,
    censorFields fuel h ctx path v = Panic msg -> msg = InterfacePanic.
Proof.
  induction fuel as [|n IH]; intros h ctx path v msg; [discriminate|].
  destruct (asStruct n h v) as [[s [|]]| |] eqn:E.
  - destruct (asStruct_true _ _ _ _ E) as (fs & fl & ->).
    rewrite (censorFields_struct _ _ _ _ _ _ _ E). intros Hp.
    apply foldM_Panic_In in Hp as (a & [f g] & _ & Hp).
    rewrite walkField_unfold in Hp.
    destruct (asStruct n h (Val g (fieldFlag fl f))) as [[s' [|]]| |] eqn:E';
      simpl in Hp.
    + eapply IH; eauto.
    + destruct (isFieldSecret f); [discriminate|].
      destruct (flagRO (fieldFlag fl f)); simpl in Hp; [|discriminate].
      now injection Hp as <-.
    + now elim (asStruct_no_panic _ _ _ _ E').
    + discriminate.
  - rewrite (censorFields_deadend _ _ _ _ _ _ E). discriminate.
  - now elim (asStruct_no_panic _ _ _ _ E).
  - simpl. rewrite E. discriminate.
Qed.

Lemma string_app_assoc (a b c : string) : (a ++ b) ++ c = a ++ b ++ c.
Proof. induction a as [|ch a IH]; simpl; [reflexivity|]. now rewrite IH. Qed.

Lemma string_app_nil_r (a : string) : a ++ "" = a.
Proof. induction a as [|ch a IH]; simpl; [reflexivity|]. now rewrite IH. Qed.

Lemma fieldPath_cons root name names :
  fieldPath root (name :: names) = fieldPath ((root ++ ".") ++ name) names.
Proof.
  unfold fieldPath. simpl.
  rewrite !string_app_assoc. reflexivity.
Qed.

Lemma fieldPath_single root name : fieldPath root [name] = (root ++ ".") ++ name.
Proof. rewrite fieldPath_cons. unfold fieldPath. simpl. apply string_app_nil_r. Qed.

Lemma emit_leaf root ctx f g fl :
  emit root ctx {| leafNames := [Name f]; leafField := f;
                   leafValue := g; leafFlag := fl |}
  = if isFieldSecret f then
      Ret (zerolog.Context_Str ctx ((root ++ ".") ++ Name f)
             CensoredFieldPlaceholder)
    else
      x <- Value_Interface (Val g fl) ;;
      Ret (zerolog.Context_Any ctx ((root ++ ".") ++ Name f) x).
Proof. unfold emit. simpl. now rewrite fieldPath_single. Qed.

Lemma emit_under root name ctx l :
  emit root ctx (under name l) = emit ((root ++ ".") ++ name) ctx l.
Proof. unfold emit. simpl. now rewrite fieldPath_cons. Qed.

Lemma foldM_emit_under root name ls :
  forall ctx,
    foldM (emit root) (map (under name) ls) ctx
    = foldM (emit ((root ++ ".") ++ name)) ls ctx.
Proof.
  induction ls as [|l ls IH]; intros ctx; simpl; [reflexivity|].
  rewrite emit_under. destruct (emit _ ctx l); simpl; auto.
Qed.

Lemma concatM_Ret_cons {X Y : Type} (f : X -> outcome (list Y)) x l ys :
  concatM f (x :: l) = Ret ys ->
  exists y1 y2, f x = Ret y1 /\ concatM f l = Ret y2 /\ ys = (y1 ++ y2)%list.
Proof.
  simpl. intros H. apply bind_Ret_inv in H as (y1 & H1 & H).
  apply bind_Ret_inv in H as (y2 & H2 & H). injection H as <-. eauto.
Qed.

Lemma leaves_unfold fuel h v :
  leaves (S fuel) h v =
  (r <- asStruct fuel h v ;;
   match r with
   | (Val (VStruct fs) fl, true) =>
       concatM (fieldLeaves (leaves fuel h) fuel h fl) fs
   | _ => Ret []
   end).
Proof. reflexivity. Qed.

(** The walk writes the leaves, one after the other. *)
Lemma censorFields_leaves fuel :
  forall h v ls, leaves fuel h v = Ret ls ->
  forall ctx path, censorFields fuel h ctx path v = foldM (emit path) ls ctx.
Proof.
  induction fuel as [|n IH]; intros h v ls Hl ctx path; [discriminate|].
  rewrite leaves_unfold in Hl.
  destruct (asStruct n h v) as [[s [|]]| |] eqn:E; simpl in Hl;
    try discriminate.
  - destruct (asStruct_true _ _ _ _ E) as (fs & fl & ->).
    rewrite (censorFields_struct _ _ _ _ _ _ _ E). clear E.
    revert ls Hl ctx.
    induction fs as [|[f g] fs IHfs]; intros ls Hl ctx.
    + injection Hl as <-. reflexivity.
    + apply concatM_Ret_cons in Hl as (y1 & y2 & H1 & H2 & ->).
      rewrite foldM_app. simpl. rewrite walkField_unfold.
      unfold fieldLeaves in H1. simpl in H1.
      destruct (asStruct n h (Val g (fieldFlag fl f))) as [[s' [|]]| |];
        cbn [bind fst snd] in *; try discriminate.
      * apply bind_Ret_inv in H1 as (ls' & Hs' & H1). injection H1 as <-.
        rewrite foldM_emit_under, (IH _ _ _ Hs').
        destruct (foldM _ ls' ctx); cbn [bind]; auto.
      * injection H1 as <-. cbn [foldM]. rewrite emit_leaf.
        destruct (isFieldSecret f); cbn [bind]; auto.
        destruct (Value_Interface _); cbn [bind]; auto.
  - rewrite (censorFields_deadend _ _ _ _ _ _ E).
    apply asStruct_false in E as ->. now injection Hl as <-.
Qed.

Lemma concatM_settled_ext {X Y : Type} (f g : X -> outcome (list Y)) (l : list X) :
  (forall x, In x l -> settled (f x) -> g x = f x) ->
  settled (concatM f l) -> concatM g l = concatM f l.
Proof.
  induction l as [|x l IH]; intros Hfg Hs; simpl in *; [reflexivity|].
  assert (Hx : settled (f x)) by (eapply bind_settled; eauto).
  rewrite (Hfg x (or_introl eq_refl) Hx).
  destruct (f x) as [ys| |]; simpl in *; auto.
  rewrite IH; auto. eapply bind_settled; eauto.
Qed.

Lemma fieldLeaves_mono n m h fl fg :
  (forall v, settled (leaves n h v) -> leaves m h v = leaves n h v) ->
  n <= m ->
  settled (fieldLeaves (leaves n h) n h fl fg) ->
  fieldLeaves (leaves m h) m h fl fg = fieldLeaves (leaves n h) n h fl fg.
Proof.
  intros IH Hle Hs. unfold fieldLeaves in *.
  pose proof (bind_settled _ _ Hs) as Ha.
  rewrite (asStruct_mono n m) by assumption.
  destruct (asStruct n h _) as [[s [|]]| |]; cbn [bind fst snd] in *; auto.
  rewrite IH; [reflexivity|]. eapply bind_settled; eauto.
Qed.

Lemma leaves_mono fuel :
  forall fuel' h v,
    fuel <= fuel' -> settled (leaves fuel h v) ->
    leaves fuel' h v = leaves fuel h v.
Proof.
  induction fuel as [|n IH]; intros m h v Hle Hs; [now elim Hs|].
  destruct m as [|m]; [lia|]. rewrite !leaves_unfold in *.
  pose proof (bind_settled _ _ Hs) as Ha.
  rewrite (asStruct_mono n m) by (lia || assumption).
  destruct (asStruct n h v) as [[[|[] fl] [|]]| |]; cbn [bind] in *; auto.
  apply concatM_settled_ext; [|assumption].
  intros fg _ Hx. apply fieldLeaves_mono; [|lia|assumption].
  intros w Hw. apply IH; [lia|assumption].
Qed.

(** ** Acyclic values *)

Lemma clos_t_rt {A : Type} (R : relation A) x y z :
  clos_trans A R x y -> clos_refl_trans A R y z -> clos_trans A R x z.
Proof.
  intros Hxy Hyz. apply clos_rt_rtn1 in Hyz.
  induction Hyz as [|z' z'' Hstep _ IH]; [assumption|].
  eapply t_trans; [exact IH|now apply t_step].
Qed.

Lemma acyclic_refers h v w : acyclic h v -> refers h v w -> acyclic h w.
Proof. intros Hv Hr. exact (Acc_inv Hv Hr). Qed.

Lemma acyclic_reach h v w :
  acyclic h v -> clos_refl_trans Value (refers h) v w -> acyclic h w.
Proof.
  intros Hv Hr. apply clos_rt_rt1n in Hr.
  induction Hr as [|x y z Hxy _ IH]; [assumption|].
  apply IH. eapply acyclic_refers; eauto.
Qed.

(** On an acyclic Value the dereferencing loop ends, at a Value reached
    through pointers only. *)
Lemma asStruct_terminates h v :
  acyclic h v ->
  exists fuel r, asStruct fuel h v = Ret r /\
                 (snd r = true -> clos_refl_trans Value (refers h) v (fst r)).
Proof.
  induction 1 as [v _ IH].
  destruct v as [|g fl].
  - exists 1, (Zero, false). split; [reflexivity|discriminate].
  - destruct g as [b|z|s|el|m|d|[a|]|fs];
      try (exists 1, (Zero, false); split; [reflexivity|discriminate]).
    + destruct (IH (Val (h a) fl) (refers_elem h a fl)) as (n & r & Hr & Hreach).
      exists (S n), r. rewrite asStruct_unfold. split; [assumption|].
      intros Ht. eapply rt_trans; [apply rt_step, refers_elem|auto].
    + exists 1, (Val (VStruct fs) fl, true). split; [reflexivity|].
      intros _. apply rt_refl.
Qed.

Lemma concatM_fieldLeaves_terminates h fl fs :
  (forall fg, In fg fs ->
     exists n ls, fieldLeaves (leaves n h) n h fl fg = Ret ls) ->
  exists n ls, concatM (fieldLeaves (leaves n h) n h fl) fs = Ret ls.
Proof.
  induction fs as [|fg fs IH]; intros Hall.
  - exists 0, []. reflexivity.
  - destruct (Hall fg (or_introl eq_refl)) as (n1 & l1 & H1).
    destruct IH as (n2 & l2 & H2); [intros; apply Hall; now right|].
    exists (Nat.max n1 n2), (l1 ++ l2)%list. simpl.
    rewrite (fieldLeaves_mono n1 (Nat.max n1 n2));
      [|intros; apply leaves_mono; [lia|assumption] | lia
       | rewrite H1; auto with outcome].
    rewrite H1. cbn [bind].
    rewrite (concatM_settled_ext (fieldLeaves (leaves n2 h) n2 h fl)).
    + now rewrite H2.
    + intros x _ Hx. apply fieldLeaves_mono;
        [intros; apply leaves_mono; [lia|assumption] | lia | assumption].
    + rewrite H2. auto with outcome.
Qed.

(** On an acyclic Value the list of leaves is finite. *)
Lemma leaves_terminates h v :
  acyclic h v -> exists fuel ls, leaves fuel h v = Ret ls.
Proof.
  intros Hacc.
  assert (Hacc' : Acc (clos_trans Value (transp Value (refers h))) v)
    by (apply Acc_clos_trans; exact Hacc).
  induction Hacc' as [v _ IH].
  destruct (asStruct_terminates h v Hacc) as (n0 & [s ok] & Hs & Hreach).
  destruct ok.
  - destruct (asStruct_true _ _ _ _ Hs) as (fs & fl & ->).
    specialize (Hreach eq_refl). simpl in Hreach.
    destruct (concatM_fieldLeaves_terminates h fl fs) as (n & ls & Hls).
    + intros [f g] Hin.
      assert (Hf : refers h (Val (VStruct fs) fl) (Val g (fieldFlag fl f)))
        by (now constructor).
      assert (Hvf : clos_trans Value (refers h) v (Val g (fieldFlag fl f)))
        by (eapply clos_rt_t; [exact Hreach|now apply t_step]).
      assert (Haf : acyclic h (Val g (fieldFlag fl f))).
      { eapply acyclic_refers; [|exact Hf]. eapply acyclic_reach; eauto. }
      destruct (asStruct_terminates h _ Haf) as (n1 & [s' ok'] & Hs' & Hreach').
      destruct ok'.
      * specialize (Hreach' eq_refl). simpl in Hreach'.
        destruct (IH s') as (n2 & ls2 & Hls2).
        -- apply clos_trans_transp_permute. unfold transp.
           eapply clos_t_rt; eauto.
        -- eapply acyclic_reach; eauto.
        -- exists (Nat.max n1 n2), (map (under (Name f)) ls2).
           unfold fieldLeaves. cbn [fst snd].
           rewrite (asStruct_mono n1) by (lia || rewrite Hs'; auto with outcome).
           rewrite Hs'. cbn [bind fst snd].
           rewrite (leaves_mono n2) by (lia || rewrite Hls2; auto with outcome).
           now rewrite Hls2.
      * exists n1. eexists. unfold fieldLeaves. cbn [fst snd].
        rewrite Hs'. reflexivity.
    + exists (S (Nat.max n n0)), ls. rewrite leaves_unfold.
      rewrite (asStruct_mono n0) by (lia || rewrite Hs; auto with outcome).
      rewrite Hs. cbn [bind].
      rewrite (concatM_settled_ext (fieldLeaves (leaves n h) n h fl));
        [assumption| |rewrite Hls; auto with outcome].
      intros x _ Hx. apply fieldLeaves_mono;
        [intros; apply leaves_mono; [lia|assumption] | lia | assumption].
  - exists (S n0), []. rewrite leaves_unfold, Hs.
    apply asStruct_false in Hs as ->. reflexivity.
Qed.



(** ** The walk in closed form *)

Lemma foldM_emit_closed root ls :
  forall ctx,
    foldM (emit root) ls ctx
    = if forallb readable ls then Ret (ctx ++ map (entry root) ls)%list
      else Panic InterfacePanic.
Proof.
  induction ls as [|l ls IH]; intros ctx; simpl.
  - now rewrite app_nil_r.
  - unfold emit at 1, readable at 1, entry at 1. simpl.
    destruct (isFieldSecret (leafField l)); simpl.
    + rewrite IH. unfold zerolog.Context_Str.
      destruct (forallb readable ls); [|reflexivity].
      now rewrite <- app_assoc.
    + destruct (flagRO (leafFlag l)); simpl; [reflexivity|].
      rewrite IH. unfold zerolog.Context_Any.
      destruct (forallb readable ls); [|reflexivity].
      now rewrite <- app_assoc.
Qed.

(** The walk of a value with the finite list of leaves [ls] appends the
    entries of the leaves, in their order, unless one of them cannot be
    read: then it panics. *)
Lemma censorFields_closed fuel h v ls ctx path :
  leaves fuel h v = Ret ls ->
  censorFields fuel h ctx path v
  = if forallb readable ls then Ret (ctx ++ map (entry path) ls)%list
    else Panic InterfacePanic.
Proof.
  intros Hl. rewrite (censorFields_leaves fuel h v ls Hl).
  apply foldM_emit_closed.
Qed.

(** ** Dead ends *)

Lemma deadEnd_asStruct h v :
  deadEnd h v ->
  exists fuel, forall fuel', fuel <= fuel' -> asStruct fuel' h v = Ret (Zero, false).
Proof.
  induction 1 as [fl|v Hp Hs|a fl _ (n & IH)].
  - exists 1. intros [|m] Hle; [lia|]. reflexivity.
  - exists 1. intros [|m] Hle; [lia|]. rewrite asStruct_unfold.
    destruct v as [|[| | | | | |[a|]|] fl]; simpl in *; congruence.
  - exists (S n). intros [|m] Hle; [lia|]. rewrite asStruct_unfold.
    apply IH. lia.
Qed.

Lemma asStruct_deadEnd fuel h v s :
  asStruct fuel h v = Ret (s, false) -> deadEnd h v.
Proof.
  revert v. induction fuel as [|n IH]; intros v; [discriminate|].
  rewrite asStruct_unfold.
  destruct v as [|[| | | | | |[a|]|] fl]; intros H;
    try (apply deadEnd_kind; simpl; discriminate).
  - apply deadEnd_elem. now apply IH.
  - apply deadEnd_nil.
Qed.

(** The loop body at a field that is a dead end: one entry for the field
    itself, or the panic of [Value.Interface]. *)
Lemma censorField_deadend recur fuel h path v vType ctx i f g fl s :
  Type_Field vType i = Ret f ->
  Value_Field v i = Ret (Val g fl) ->
  asStruct fuel h (Val g fl) = Ret (s, false) ->
  censorField recur fuel h path v vType ctx i
  = if isFieldSecret f then
      Ret (ctx ++ [zerolog.FStr ((path ++ ".") ++ Name f) CensoredFieldPlaceholder])%list
    else if flagRO fl then Panic InterfacePanic
    else Ret (ctx ++ [zerolog.FAny ((path ++ ".") ++ Name f) g])%list.
Proof.
  intros Ht Hv Hs. unfold censorField. rewrite Ht, Hv. cbn [bind].
  rewrite Hs. cbn [bind snd].
  destruct (isFieldSecret f); [reflexivity|].
  simpl. destruct (flagRO fl); reflexivity.
Qed.

(** The loop body at a field that normalizes to a struct: the recursive
    call, whatever the tag of the field says. *)
Lemma censorField_nested recur fuel h path v vType ctx i f fv s :
  Type_Field vType i = Ret f ->
  Value_Field v i = Ret fv ->
  asStruct fuel h fv = Ret (s, true) ->
  censorField recur fuel h path v vType ctx i
  = recur ctx ((path ++ ".") ++ Name f) s.
Proof.
  intros Ht Hv Hs. unfold censorField. rewrite Ht, Hv. cbn [bind].
  rewrite Hs. reflexivity.
Qed.

(** ** Pointer chains *)

(** Each level of pointer costs the dereferencing loop one unit of fuel and
    nothing else. *)
Lemma asStruct_pointsTo h n :
  forall p r fuel fl,
    pointsTo h p n r ->
    asStruct (n + fuel) h (Val p fl) = asStruct fuel h (Val r fl).
Proof.
  induction n as [|n IH]; intros p r fuel fl Hp; simpl in Hp.
  - now subst.
  - destruct Hp as (a & -> & Hp). simpl. now apply IH.
Qed.

Lemma pointsTo_ValueOf h n p fs :
  pointsTo h p n (VStruct fs) -> ValueOf p = Val p flag0.
Proof.
  destruct n as [|n]; simpl.
  - now intros ->.
  - now intros (a & -> & _).
Qed.

(** The walk looks at its argument through [asStruct] only. *)
Lemma censorFields_asStruct_ext fuel h ctx path v v' :
  asStruct fuel h v = asStruct fuel h v' ->
  censorFields (S fuel) h ctx path v = censorFields (S fuel) h ctx path v'.
Proof. intros H. simpl. now rewrite H. Qed.

Lemma WithCensoredSecretFields_pointsTo h p n fs ctx root fuel :
  pointsTo h p n (VStruct fs) ->
  WithCensoredSecretFields (n + (2 + fuel)) h ctx root p
  = WithCensoredSecretFields (n + (2 + fuel)) h ctx root (VStruct fs).
Proof.
  intros Hp. unfold WithCensoredSecretFields.
  rewrite (pointsTo_ValueOf h n p fs Hp). simpl ValueOf.
  replace (n + (2 + fuel)) with (S (n + S fuel)) by lia.
  apply censorFields_asStruct_ext.
  rewrite (asStruct_pointsTo h n p (VStruct fs) (S fuel) flag0 Hp).
  replace (n + S fuel) with (S (n + fuel)) by lia. reflexivity.
Qed.

(** ** Cyclic values *)

Lemma asStruct_agree n k h v :
  settled (asStruct n h v) -> settled (asStruct k h v) ->
  asStruct n h v = asStruct k h v.
Proof.
  intros Hn Hk.
  rewrite <- (asStruct_mono n (Nat.max n k) h v) by (lia || assumption).
  now rewrite <- (asStruct_mono k (Nat.max n k) h v) by (lia || assumption).
Qed.





(** [asStruct] ends at a Value reached through pointers, with the flag it
    started with. *)
Lemma asStruct_reach fuel h :
  forall v s,
    asStruct fuel h v = Ret (s, true) ->
    clos_refl_trans Value (refers h) v s
    /\ Value_CanInterface s = Value_CanInterface v.
Proof.
  induction fuel as [|n IH]; intros v s; [discriminate|].
  rewrite asStruct_unfold.
  destruct v as [|[| | | | | |[a|]|] fl]; try discriminate.
  - intros H. destruct (IH _ _ H) as [Hr Hc]. split; [|assumption].
    eapply rt_trans; [apply rt_step, refers_elem|exact Hr].
  - intros [= <-]. split; [apply rt_refl|reflexivity].
Qed.




(** ** Depth *)


(** ** The leaves, by position *)

Lemma leafAt_norm h k v s idx l :
  asStruct k h v = Ret (s, true) -> leafAt h s idx l -> leafAt h v idx l.
Proof.
  intros Hv Hl.
  destruct (asStruct_true _ _ _ _ Hv) as (fs0 & fl0 & ->).
  inversion Hl as [v' fuel fs fl i f g Hs Hi Hd | v' fuel fs fl i f g idx' l' Hs Hi Hbelow];
    subst; destruct fuel as [|fuel]; try discriminate;
    rewrite asStruct_unfold in Hs; injection Hs as <- <-.
  - eapply leafAt_here; eauto.
  - eapply leafAt_below; eauto.
Qed.

Lemma StronglySorted_app {A : Type} (R : A -> A -> Prop) (l1 l2 : list A) :
  StronglySorted R l1 -> StronglySorted R l2 ->
  (forall a b, In a l1 -> In b l2 -> R a b) ->
  StronglySorted R (l1 ++ l2).
Proof.
  induction l1 as [|a l1 IH]; intros H1 H2 H12; simpl; [assumption|].
  inversion H1 as [|a' l' Hs Hall]; subst. constructor.
  - apply IH; auto. intros x y Hx Hy. apply H12; [now right|assumption].
  - apply Forall_app. split; [assumption|].
    apply Forall_forall. intros y Hy. apply H12; [now left|assumption].
Qed.

Lemma StronglySorted_map_cons i idxs :
  StronglySorted declaredBefore idxs ->
  StronglySorted declaredBefore (map (cons i) idxs).
Proof.
  induction 1 as [|a l Hs IH Hall]; simpl; constructor; [assumption|].
  apply Forall_map. eapply Forall_impl; [|exact Hall].
  intros b Hab. simpl. right. auto.
Qed.

(** What [leaves] lists for the fields [rest] that follow the fields [pre]
    of a struct: leaves at positions from [length pre] on, in declaration
    order. *)
Lemma fieldLeaves_positions n h v k fl
    (IH : forall s ls, leaves n h s = Ret ls ->
          exists idxs, Forall2 (leafAt h s) idxs ls
                       /\ StronglySorted declaredBefore idxs) :
  forall rest pre ls,
    asStruct k h v = Ret (Val (VStruct (pre ++ rest)) fl, true) ->
    concatM (fieldLeaves (leaves n h) n h fl) rest = Ret ls ->
    exists idxs,
      Forall2 (leafAt h v) idxs ls
      /\ StronglySorted declaredBefore idxs
      /\ Forall (fun idx => exists i tl, idx = i :: tl /\ length pre <= i) idxs.
Proof.
  induction rest as [|[f g] rest IHrest]; intros pre ls Hv Hl.
  - injection Hl as <-. exists []. repeat constructor.
  - apply concatM_Ret_cons in Hl as (y1 & y2 & H1 & H2 & ->).
    assert (Hi : nth_error (pre ++ (f, g) :: rest) (length pre) = Some (f, g))
      by (rewrite nth_error_app2, Nat.sub_diag by lia; reflexivity).
    destruct (IHrest (pre ++ [(f, g)])%list y2) as (idxs2 & Hf2 & Hs2 & Hp2);
      [now rewrite <- app_assoc|assumption|].
    rewrite length_app in Hp2. simpl in Hp2.
    assert (exists idxs1,
               Forall2 (leafAt h v) idxs1 y1
               /\ StronglySorted declaredBefore idxs1
               /\ Forall (fun idx => exists tl, idx = length pre :: tl) idxs1)
      as (idxs1 & Hf1 & Hs1 & Hp1).
    { unfold fieldLeaves in H1. cbn [fst snd] in H1.
      destruct (asStruct n h (Val g (fieldFlag fl f))) as [[s' [|]]| |] eqn:E;
        cbn [bind fst snd] in H1; try discriminate.
      - apply bind_Ret_inv in H1 as (ls' & Hls' & H1). injection H1 as <-.
        destruct (IH s' ls' Hls') as (idxs' & Hf' & Hs').
        exists (map (cons (length pre)) idxs'). split; [|split].
        + clear - Hf' Hv Hi E.
          induction Hf' as [|idx l idxs' ls' Hl _ IHf]; simpl; constructor; auto.
          eapply leafAt_below; eauto. eapply leafAt_norm; eauto.
        + now apply StronglySorted_map_cons.
        + apply Forall_map. apply Forall_forall. intros; eauto.
      - injection H1 as <-. exists [[length pre]]. split; [|split].
        + constructor; [|constructor].
          eapply leafAt_here; eauto. eapply asStruct_deadEnd; eauto.
        + repeat constructor.
        + repeat constructor. eauto. }
    exists (idxs1 ++ idxs2)%list. split; [|split].
    + now apply Forall2_app.
    + apply StronglySorted_app; auto.
      intros a b Ha Hb. rewrite Forall_forall in Hp1, Hp2.
      destruct (Hp1 a Ha) as (tl & ->).
      destruct (Hp2 b Hb) as (j & tl' & -> & Hj). simpl. left. lia.
    + apply Forall_app. split.
      * eapply Forall_impl; [|exact Hp1]. intros a (tl & ->). eauto.
      * eapply Forall_impl; [|exact Hp2]. intros a (j & tl & -> & Hj).
        exists j, tl. split; [reflexivity|lia].
Qed.

(** The leaves [leaves] lists are the leaves of the value, each at the
    position its names say, and they come in declaration order at each
    level. *)
Lemma leaves_positions fuel :
  forall h v ls,
    leaves fuel h v = Ret ls ->
    exists idxs, Forall2 (leafAt h v) idxs ls
                 /\ StronglySorted declaredBefore idxs.
Proof.
  induction fuel as [|n IH]; intros h v ls Hl; [discriminate|].
  rewrite leaves_unfold in Hl.
  destruct (asStruct n h v) as [[s [|]]| |] eqn:E; cbn [bind] in Hl;
    try discriminate.
  - destruct (asStruct_true _ _ _ _ E) as (fs & fl & ->).
    destruct (fieldLeaves_positions n h v n fl (IH h) fs [] ls E Hl)
      as (idxs & Hf & Hs & _).
    eauto.
  - apply asStruct_false in E as ->. injection Hl as <-.
    exists []. split; constructor.
Qed.

Lemma leaves_names_nonempty h v idx l : leafAt h v idx l -> leafNames l <> [].
Proof. destruct 1; discriminate. Qed.

Lemma map_fieldKey_entry root ls :
  map fieldKey (map (entry root) ls)
  = map (fun l => root ++ dotted (leafNames l)) ls.
Proof.
  rewrite map_map. apply map_ext. intros l. unfold entry.
  destruct (isFieldSecret (leafField l)); reflexivity.
Qed.

Lemma string_app_inv_nil (a b : string) : a ++ b = a -> b = "".
Proof.
  induction a as [|c a IH]; simpl; [auto|].
  intros H. injection H as H. auto.
Qed.

(** The entries of the leaves under a record are at paths strictly below
    the path of the record. *)
Lemma entry_key_below h v idx l root :
  leafAt h v idx l -> fieldKey (entry root l) <> root.
Proof.
  intros Hl Hk.
  assert (Hkey : fieldKey (entry root l) = root ++ dotted (leafNames l))
    by (unfold entry; destruct (isFieldSecret (leafField l)); reflexivity).
  rewrite Hkey in Hk. apply string_app_inv_nil in Hk.
  pose proof (leaves_names_nonempty h v idx l Hl) as Hne.
  destruct (leafNames l) as [|n ns]; [now elim Hne|discriminate].
Qed.

Lemma concatM_Ret_In {X Y : Type} (f : X -> outcome (list Y)) (l : list X) :
  forall ys x, concatM f l = Ret ys -> In x l ->
  exists y, f x = Ret y /\ incl y ys.
Proof.
  induction l as [|x0 l IH]; intros ys x Hc Hin; [destruct Hin|].
  apply concatM_Ret_cons in Hc as (y1 & y2 & H1 & H2 & ->).
  destruct Hin as [->|Hin].
  - exists y1. split; [assumption|]. now apply incl_appl.
  - destruct (IH y2 x H2 Hin) as (y & Hy & Hincl).
    exists y. split; [assumption|]. now apply incl_appr.
Qed.

Lemma leaves_asStruct_ext fuel h v v' :
  asStruct fuel h v = asStruct fuel h v' ->
  leaves (S fuel) h v = leaves (S fuel) h v'.
Proof. intros H. rewrite !leaves_unfold. now rewrite H. Qed.

(** Every leaf of the value is in the list. *)
Lemma leaves_complete h v idx l :
  leafAt h v idx l ->
  forall fuel ls, leaves fuel h v = Ret ls -> In l ls.
Proof.
  induction 1 as [v k fs fl i f g Hs Hi Hd | v k fs fl i f g idx l Hs Hi Hbelow IH];
    intros fuel ls Hl.
  - destruct fuel as [|n]; [discriminate|]. rewrite leaves_unfold in Hl.
    assert (Hn : asStruct n h v = Ret (Val (VStruct fs) fl, true)).
    { rewrite <- Hs. apply asStruct_agree; [|rewrite Hs; auto with outcome].
      eapply bind_settled. rewrite Hl. auto with outcome. }
    rewrite Hn in Hl. cbn [bind] in Hl.
    destruct (concatM_Ret_In _ _ _ (f, g) Hl (nth_error_In _ _ Hi))
      as (y & Hy & Hincl).
    apply Hincl. unfold fieldLeaves in Hy. cbn [fst snd] in Hy.
    destruct (deadEnd_asStruct h _ Hd) as (m & Hm).
    assert (Hf : asStruct n h (Val g (fieldFlag fl f)) = Ret (Zero, false)).
    { rewrite <- (Hm m (le_n m)).
      apply asStruct_agree; [|rewrite (Hm m (le_n m)); auto with outcome].
      eapply bind_settled. rewrite Hy. auto with outcome. }
    rewrite Hf in Hy. injection Hy as <-. now left.
  - destruct fuel as [|n]; [discriminate|]. rewrite leaves_unfold in Hl.
    assert (Hn : asStruct n h v = Ret (Val (VStruct fs) fl, true)).
    { rewrite <- Hs. apply asStruct_agree; [|rewrite Hs; auto with outcome].
      eapply bind_settled. rewrite Hl. auto with outcome. }
    rewrite Hn in Hl. cbn [bind] in Hl.
    destruct (concatM_Ret_In _ _ _ (f, g) Hl (nth_error_In _ _ Hi))
      as (y & Hy & Hincl).
    apply Hincl. unfold fieldLeaves in Hy. cbn [fst snd] in Hy.
    apply bind_Ret_inv in Hy as ([s' ok] & Hs' & Hy). cbn [fst snd] in Hy.
    assert (Hok : ok = true).
    { destruct ok; [reflexivity|]. exfalso.
      inversion Hbelow as [v' k' fs' fl' i' f' g' Hs'' _ _
                          | v' k' fs' fl' i' f' g' idx' l' Hs'' _ _]; subst;
        (assert (asStruct n h (Val g (fieldFlag fl f)) = asStruct k' h (Val g (fieldFlag fl f)))
          as Habs by (apply asStruct_agree;
                      [rewrite Hs'|rewrite Hs'']; auto with outcome));
        rewrite Hs', Hs'' in Habs; discriminate. }
    subst ok. apply bind_Ret_inv in Hy as (ls' & Hls' & Hy). injection Hy as <-.
    apply in_map. apply (IH (S n) ls').
    rewrite (leaves_asStruct_ext n h (Val g (fieldFlag fl f)) s')
      by (rewrite Hs'; symmetry; exact (asStruct_idem _ _ _ _ Hs')).
    rewrite (leaves_mono n (S n) h s') by (lia || rewrite Hls'; auto with outcome).
    exact Hls'.
Qed.

(** ** The walk of an acyclic value *)

Lemma leaves_det n m h v l1 l2 :
  leaves n h v = Ret l1 -> leaves m h v = Ret l2 -> l1 = l2.
Proof.
  intros H1 H2.
  assert (E1 : leaves (Nat.max n m) h v = Ret l1)
    by (rewrite (leaves_mono n) by (lia || rewrite H1; auto with outcome);
        assumption).
  assert (E2 : leaves (Nat.max n m) h v = Ret l2)
    by (rewrite (leaves_mono m) by (lia || rewrite H2; auto with outcome);
        assumption).
  congruence.
Qed.

(** For an acyclic value, enough fuel gives the list of its leaves, and
    the walk in closed form. *)
Lemma censorFields_acyclic h v :
  acyclic h v ->
  exists fuel ls,
    leaves fuel h v = Ret ls
    /\ forall fuel' ctx path,
        fuel <= fuel' ->
        censorFields fuel' h ctx path v
        = if forallb readable ls then Ret (ctx ++ map (entry path) ls)%list
          else Panic InterfacePanic.
Proof.
  intros Hacc. destruct (leaves_terminates h v Hacc) as (n & ls & Hls).
  exists n, ls. split; [assumption|].
  intros m ctx path Hle. apply censorFields_closed.
  rewrite (leaves_mono n) by (assumption || rewrite Hls; auto with outcome).
  assumption.
Qed.

(** Acyclicity of a value written out in full is found by walking it, at
    most [n] references deep. *)
Ltac walk_acyclic n :=
  lazymatch n with
  | O => idtac
  | S ?n' =>
      constructor; intros ? ?Hstep; inversion Hstep; subst; clear Hstep;
      cbv [field unexported] in *; simpl in *;
      repeat match goal with
             | H : _ \/ _ |- _ => destruct H
             | H : False |- _ => destruct H
             | H : (_, _) = (_, _) |- _ => injection H as <- <-
             end;
      walk_acyclic n'
  end.

(** * The tests of the package, run on the model *)

Example TestWithCensoredSecretFields :
  WithCensoredSecretFields 3 testHeap [] "config" (testConfig (Some 0))
  = Ret [zerolog.FAny "config.Username" (VString "admin");
         zerolog.FStr "config.Password" "***";
         zerolog.FStr "config.APIKey" "***";
         zerolog.FAny "config.SubConfig.PublicField" (VString "visible");
         zerolog.FStr "config.SubConfig.SecretField" "***";
         zerolog.FAny "config.PublicData" (VString "this is public")].
Proof. reflexivity. Qed.

Example TestWithCensoredSecretFieldsNilPointer :
  WithCensoredSecretFields 3 testHeap [] "config" (testConfig None)
  = Ret [zerolog.FAny "config.Username" (VString "admin");
         zerolog.FStr "config.Password" "***";
         zerolog.FStr "config.APIKey" "***";
         zerolog.FAny "config.SubConfig" (VPointer None);
         zerolog.FAny "config.PublicData" (VString "this is public")].
Proof. reflexivity. Qed.

Example TestWithCensoredSecretFieldsNonStruct :
  WithCensoredSecretFields 2 emptyHeap [] "value" (VInt 42) = Ret [].
Proof. reflexivity. Qed.

Example TestWithCensoredSecretFieldsPointerToStruct :
  WithCensoredSecretFields 3 (fun _ => docConfig) [] "config" (VPointer (Some 0))
  = Ret [zerolog.FAny "config.Username" (VString "admin");
         zerolog.FStr "config.Password" "***"].
Proof. reflexivity. Qed.

Example hook_on_error_event :
  zerolog.fields
    (callerHook_Run someStack failingEvent zerolog.ErrorLevel "an error occurred")
  = [zerolog.FAny "manifest" (VString "x");
     zerolog.FErr "error" "boom";
     zerolog.FStr "file" "main.go:42"].
Proof. reflexivity. Qed.

Example hook_on_info_event :
  callerHook_Run someStack plainEvent zerolog.InfoLevel "hello world" = plainEvent.
Proof. reflexivity. Qed.

(** * The claims *)

(** ** C1: the walk panics on an unexported leaf field *)

(** C1 (defect of the code).  The claim: redaction never panics, an
    unreadable field only leaves its branch out.  The code: the walk calls
    [Value.Interface] on every unmarked leaf without asking [CanInterface],
    so a struct with an unexported, unmarked leaf field makes
    [WithCensoredSecretFields] panic, with any fuel that lets it reach the
    field, any heap and any accumulator; so does a struct with an exported
    field of type [time.Time]. *)
Theorem C1_unexported_field_panics :
  forall (fuel : nat) (h : Heap) (ctx : zerolog.Context) (x : string),
    WithCensoredSecretFields (2 + fuel) h ctx "cfg"
      (VStruct [unexported "name" [] (VString x)])
    = Panic InterfacePanic
    /\
    WithCensoredSecretFields (3 + fuel) h ctx "cfg"
      (VStruct [field "Name" [] (VString x); field "CreatedAt" [] timeTime])
    = Panic InterfacePanic.
Proof. intros fuel h ctx x. split; reflexivity. Qed.

(** ** C2: the count of placeholders *)

(** C2, as stated, fails on [leakyRecord]: it has one marked leaf, but two
    entries hold the placeholder (the one of [Token] and the unmarked
    [Mask]), and the entry of the unmarked [Hint] holds the value of the
    marked [Token]. *)
Lemma C2_counterexample :
  WithCensoredSecretFields 2 emptyHeap [] "r" leakyRecord
  = Ret [zerolog.FStr "r.Token" "***";
         zerolog.FAny "r.Hint" (VString "s3cr3t");
         zerolog.FAny "r.Mask" (VString "***")]
  /\ ~ placeholderCountClaim emptyHeap "r" leakyRecord.
Proof.
  split; [reflexivity|].
  intros Hclaim.
  destruct (Hclaim 2 _ _ eq_refl eq_refl) as [Hcount Hvalues].
  vm_compute in Hcount. discriminate.
Qed.

Lemma filter_isRedaction_entry root ls :
  length (filter isRedaction (map (entry root) ls))
  = length (filter isSecretLeaf ls).
Proof.
  induction ls as [|l ls IH]; simpl; [reflexivity|].
  unfold entry at 1, isSecretLeaf at 1.
  destruct (isFieldSecret (leafField l)); simpl; auto.
Qed.

(** C2, amended.  For every acyclic value there is the finite list [ls] of
    its leaf fields -- every leaf, each once, at its position, in
    declaration order -- and if all of them are marked or readable, then
    with enough fuel the walk appends one entry per leaf, in that order; the
    entries written by the redacting branch (the placeholder, as a string)
    are as many as the marked leaves; a marked leaf gets the placeholder at
    its path and an unmarked leaf its own value. *)
Theorem C2_placeholders_for_marked_leaves :
  forall (h : Heap) (v : GoValue),
    acyclic h (ValueOf v) ->
    exists (fuel : nat) (ls : list Leaf),
      leaves fuel h (ValueOf v) = Ret ls
      /\ (exists idxs, Forall2 (leafAt h (ValueOf v)) idxs ls
                       /\ StronglySorted declaredBefore idxs)
      /\ (forall idx l, leafAt h (ValueOf v) idx l -> In l ls)
      /\ (forallb readable ls = true ->
          forall fuel' ctx root,
            fuel <= fuel' ->
            WithCensoredSecretFields fuel' h ctx root v
            = Ret (ctx ++ map (entry root) ls)%list)
      /\ (forall root,
            length (filter isRedaction (map (entry root) ls))
            = length (filter isSecretLeaf ls))
      /\ (forall root l, In l ls ->
            entry root l
            = if isSecretLeaf l
              then zerolog.FStr (fieldPath root (leafNames l))
                                CensoredFieldPlaceholder
              else zerolog.FAny (fieldPath root (leafNames l)) (leafValue l)).
Proof.
  intros h v Hacc.
  destruct (censorFields_acyclic h _ Hacc) as (fuel & ls & Hl & Hwalk).
  exists fuel, ls. split; [assumption|]. split; [|split; [|split; [|split]]].
  - exact (leaves_positions fuel h _ ls Hl).
  - intros idx l Hat. exact (leaves_complete h _ idx l Hat fuel ls Hl).
  - intros Hr m ctx root Hle. unfold WithCensoredSecretFields.
    rewrite (Hwalk m ctx root Hle). now rewrite Hr.
  - intros root. apply filter_isRedaction_entry.
  - intros root l _. reflexivity.
Qed.

Lemma leakyRecord_acyclic : acyclic emptyHeap (ValueOf leakyRecord).
Proof. walk_acyclic 8. Defined.

Lemma C2_witness :
  exists fuel,
    WithCensoredSecretFields fuel emptyHeap [] "r" leakyRecord
    = Ret [zerolog.FStr "r.Token" "***";
           zerolog.FAny "r.Hint" (VString "s3cr3t");
           zerolog.FAny "r.Mask" (VString "***")].
Proof.
  destruct (C2_placeholders_for_marked_leaves emptyHeap leakyRecord
              leakyRecord_acyclic)
    as (fuel & ls & Hl & _ & _ & Hret & _).
  pose proof (leaves_det fuel 2 emptyHeap _ ls _ Hl eq_refl) as ->.
  exists fuel. exact (Hret eq_refl fuel [] "r" (le_n fuel)).
Defined.

(** ** C3: what the loop writes for a leaf field *)

(** C3 (defect of the code, the one of C1).  The claim: an unmarked field
    that does not normalize to a record is written with its value.  The
    code: for an unexported such field the loop body panics in
    [Value.Interface] and writes nothing; the walk of the record
    [{Name: "root", age: 7}] ends in that panic. *)
Theorem C3_unexported_leaf_not_written :
  forall (recur : zerolog.Context -> string -> Value -> outcome zerolog.Context)
         (fuel : nat) (h : Heap) (path : string) (fl : flag)
         (ctx : zerolog.Context) (pre post : list (StructField * GoValue))
         (name : string) (z : Z),
    let fs := (pre ++ unexported name [] (VInt z) :: post)%list in
    censorField recur (S fuel) h path (Val (VStruct fs) fl)
                (TStruct (map fst fs)) ctx (length pre)
    = Panic InterfacePanic
    /\
    WithCensoredSecretFields 2 emptyHeap [] "cfg"
      (VStruct [field "Name" [] (VString "root"); unexported "age" [] (VInt 7)])
    = Panic InterfacePanic.
Proof.
  intros recur fuel h path fl ctx pre post name z fs. split; [|reflexivity].
  unfold fs.
  rewrite (censorField_deadend recur (S fuel) h path _ _ ctx (length pre)
             (fst (unexported name [] (VInt z))) (VInt z)
             (fieldFlag fl (fst (unexported name [] (VInt z)))) Zero).
  - unfold flagRO, fieldFlag. simpl. now rewrite orb_true_r.
  - simpl. rewrite nth_error_map, nth_error_app2, Nat.sub_diag by lia.
    reflexivity.
  - simpl. rewrite nth_error_app2, Nat.sub_diag by lia. reflexivity.
  - reflexivity.
Qed.

(** ** C4: dead ends *)

(** C4, as stated, fails on the record [{Name: "root", Level2: nil}] walked
    under ["cfg"]: the nil pointer [Level2] is a dead end, and the walk
    writes the entry [cfg.Level2] for it, holding the nil pointer. *)
Lemma C4_counterexample :
  WithCensoredSecretFields 2 emptyHeap [] "cfg" (VStruct nilNested)
  = Ret [zerolog.FAny "cfg.Name" (VString "root");
         zerolog.FAny "cfg.Level2" (VPointer None)]
  /\ ~ deadEndSilentClaim emptyHeap "cfg" nilNested.
Proof.
  split; [reflexivity|].
  intros Hclaim.
  apply (Hclaim (fst (field "Level2" [] (VPointer None))) (VPointer None)
           (or_intror (or_introl eq_refl)) (deadEnd_nil _ _)
           2 _ eq_refl (zerolog.FAny "cfg.Level2" (VPointer None))).
  - simpl. auto.
  - reflexivity.
Qed.

(** C4, amended.  A dead end passed as the top-level value: the accumulator
    comes back as it was, and nothing panics.  A dead end reached as field
    [i] of a walked record, marked or readable: the loop body writes one
    entry, at the path of the field itself -- the placeholder if the field
    is marked, the value of the field (the nil pointer, the scalar)
    otherwise -- and so nothing beneath that path. *)
Theorem C4_dead_ends :
  forall (h : Heap),
    (forall v : GoValue,
        deadEnd h (ValueOf v) ->
        exists fuel, forall fuel' ctx root,
            fuel <= fuel' ->
            WithCensoredSecretFields fuel' h ctx root v = Ret ctx)
    /\
    (forall v vType i f g fl,
        Type_Field vType i = Ret f ->
        Value_Field v i = Ret (Val g fl) ->
        deadEnd h (Val g fl) ->
        isFieldSecret f || Value_CanInterface (Val g fl) = true ->
        exists fuel, forall fuel' recur path ctx,
            fuel <= fuel' ->
            censorField recur fuel' h path v vType ctx i
            = Ret (ctx ++ [if isFieldSecret f
                           then zerolog.FStr ((path ++ ".") ++ Name f)
                                             CensoredFieldPlaceholder
                           else zerolog.FAny ((path ++ ".") ++ Name f) g])%list).
Proof.
  intros h. split.
  - intros v Hd. destruct (deadEnd_asStruct h _ Hd) as (n & Hn).
    exists (S n). intros [|m] ctx root Hle; [lia|].
    apply (censorFields_deadend m h ctx root (ValueOf v) Zero).
    apply Hn. lia.
  - intros v vType i f g fl Ht Hv Hd Hr.
    destruct (deadEnd_asStruct h _ Hd) as (n & Hn).
    exists n. intros m recur path ctx Hle.
    rewrite (censorField_deadend recur m h path v vType ctx i f g fl Zero Ht Hv)
      by (now apply Hn).
    simpl in Hr. destruct (isFieldSecret f); [reflexivity|].
    simpl in Hr. apply negb_true_iff in Hr. now rewrite Hr.
Qed.

Lemma C4_witness :
  (exists fuel, forall fuel' ctx root,
      fuel <= fuel' ->
      WithCensoredSecretFields fuel' emptyHeap ctx root (VInt 42) = Ret ctx)
  /\
  (exists fuel, forall fuel',
      fuel <= fuel' ->
      censorField (censorFields fuel' emptyHeap) fuel' emptyHeap "cfg"
                  (Val (VStruct nilNested) flag0)
                  (TStruct (map fst nilNested)) [] 1
      = Ret [zerolog.FAny "cfg.Level2" (VPointer None)]).
Proof.
  split.
  - apply (proj1 (C4_dead_ends emptyHeap) (VInt 42)).
    apply deadEnd_kind; discriminate.
  - destruct (proj2 (C4_dead_ends emptyHeap)
                (Val (VStruct nilNested) flag0)
                (TStruct (map fst nilNested)) 1
                (fst (field "Level2" [] (VPointer None))) (VPointer None) flag0
                eq_refl eq_refl (deadEnd_nil _ _) eq_refl) as (n & Hn).
    exists n. intros m Hle.
    exact (Hn m (censorFields m emptyHeap) "cfg" [] Hle).
Defined.

(** ** C5: pointers to the record *)

(** C5.  For a record [r] and a value [p] that is [r] behind [n] levels of
    non-nil pointers, redacting [p] and redacting [r] under the same label
    from the same accumulator have the same outcome -- the same entries in
    the same order -- with any fuel beyond what the chain itself takes, and
    hence whenever either of the two settles. *)
Theorem C5_pointer_chain_same_fields :
  forall (h : Heap) (p : GoValue) (n : nat)
         (fs : list (StructField * GoValue))
         (ctx : zerolog.Context) (root : string),
    pointsTo h p n (VStruct fs) ->
    (forall fuel,
        WithCensoredSecretFields (n + (2 + fuel)) h ctx root p
        = WithCensoredSecretFields (n + (2 + fuel)) h ctx root (VStruct fs))
    /\
    (forall o, settled o ->
        (exists fuel, WithCensoredSecretFields fuel h ctx root p = o)
        <-> (exists fuel, WithCensoredSecretFields fuel h ctx root (VStruct fs) = o)).
Proof.
  intros h p n fs ctx root Hp.
  assert (Heq := fun fuel =>
            WithCensoredSecretFields_pointsTo h p n fs ctx root fuel Hp).
  split; [exact Heq|].
  intros o Ho. split; intros (fuel & Hf).
  - exists (n + (2 + fuel)). rewrite <- Heq.
    rewrite (WithCensoredSecretFields_mono fuel) by (lia || now rewrite Hf).
    assumption.
  - exists (n + (2 + fuel)). rewrite Heq.
    rewrite (WithCensoredSecretFields_mono fuel) by (lia || now rewrite Hf).
    assumption.
Qed.

Lemma C5_witness :
  WithCensoredSecretFields 4 twoHops [] "config" (VPointer (Some 0))
  = WithCensoredSecretFields 4 twoHops [] "config" docConfig.
Proof.
  apply (proj1 (C5_pointer_chain_same_fields
                  twoHops (VPointer (Some 0)) 2
                  [field "Username" [("json", "username")] (VString "admin");
                   field "Password" (("json", "password") :: secret)
                         (VString "s3cr3t")]
                  [] "config"
                  (ex_intro _ 0 (conj eq_refl
                     (ex_intro _ 1 (conj eq_refl eq_refl))))) 0).
Defined.

(** ** C6: paths and order *)

(** C6.  For every acyclic value there is the finite list [ls] of its leaf
    fields such that: with enough fuel the walk appends the entries of [ls]
    in the order of [ls] (or panics, if a leaf cannot be read); the path of
    each entry is the root label followed by a dot and a declared field name
    per nesting level; each leaf is the field found by taking, level by
    level, the fields with those names; the leaves come in declaration order
    at each level; and no leaf of the value is left out. *)
Theorem C6_paths_and_declaration_order :
  forall (h : Heap) (v : GoValue),
    acyclic h (ValueOf v) ->
    exists (fuel : nat) (ls : list Leaf),
      leaves fuel h (ValueOf v) = Ret ls
      /\ (forall fuel' ctx root,
            fuel <= fuel' ->
            WithCensoredSecretFields fuel' h ctx root v
            = if forallb readable ls
              then Ret (ctx ++ map (entry root) ls)%list
              else Panic InterfacePanic)
      /\ (forall root,
            map fieldKey (map (entry root) ls)
            = map (fun l => root ++ dotted (leafNames l)) ls)
      /\ (exists idxs,
            Forall2 (leafAt h (ValueOf v)) idxs ls
            /\ StronglySorted declaredBefore idxs)
      /\ (forall idx l, leafAt h (ValueOf v) idx l -> In l ls).
Proof.
  intros h v Hacc.
  destruct (censorFields_acyclic h _ Hacc) as (fuel & ls & Hl & Hwalk).
  exists fuel, ls. split; [assumption|]. split; [|split; [|split]].
  - intros m ctx root Hle. now apply Hwalk.
  - intros root. apply map_fieldKey_entry.
  - exact (leaves_positions fuel h _ ls Hl).
  - intros idx l Hat. exact (leaves_complete h _ idx l Hat fuel ls Hl).
Qed.

Lemma deepHeap_acyclic : acyclic deepHeap (ValueOf (VPointer (Some 0))).
Proof. walk_acyclic 8. Defined.

Lemma C6_witness :
  exists fuel,
    WithCensoredSecretFields fuel deepHeap [] "cfg" (VPointer (Some 0))
    = Ret [zerolog.FAny "cfg.Name" (VString "root");
           zerolog.FAny "cfg.Level2.Info" (VString "middle");
           zerolog.FAny "cfg.Level2.Level3.Data" (VString "deep_data");
           zerolog.FStr "cfg.Level2.Level3.Secret" "***";
           zerolog.FStr "cfg.Token" "***"].
Proof.
  destruct (C6_paths_and_declaration_order deepHeap (VPointer (Some 0))
              deepHeap_acyclic)
    as (fuel & ls & Hl & Hwalk & _).
  pose proof (leaves_det fuel 6 deepHeap _ ls _ Hl eq_refl) as ->.
  exists fuel. exact (Hwalk fuel [] "cfg" (le_n fuel)).
Defined.

(** ** C7 and C8: the hook *)

Lemma callerHook_Run_fields st e level msg :
  exists callerPart,
    zerolog.fields (callerHook_Run st e level msg)
    = (zerolog.fields (withErrCtx e) ++ callerPart)%list
    /\ (callerPart = [] \/ exists s, callerPart = [zerolog.FStr "file" s]).
Proof.
  unfold callerHook_Run. fold (withErrCtx e).
  destruct ((level =? zerolog.ErrorLevel)%Z || (level =? zerolog.FatalLevel)%Z
            || (level =? zerolog.PanicLevel)%Z).
  - unfold runtime.Caller. destruct (nth_error st 3) as [fr|].
    + exists [zerolog.FStr "file"
                (fmt.Sprintf_s_colon_d (runtime.file fr) (runtime.line fr))].
      split; [reflexivity|]. right. eauto.
    + exists []. split; [now rewrite app_nil_r|now left].
  - exists []. split; [now rewrite app_nil_r|now left].
Qed.

(** C7.  On every invocation of the hook, with [ec] the error context
    retrieved from the event: if [ec] carries the error [err], the pairs of
    its mapping are written into the event and then the error under the key
    ["error"]; if it carries no error, neither is written.  In both cases
    the only other field the hook may write is the call site [file]. *)
Theorem C7_error_context_merged_iff_error :
  forall (st : runtime.Stack) (e : zerolog.Event) (level : zerolog.Level)
         (msg : string),
  exists callerPart,
    (callerPart = [] \/ exists s, callerPart = [zerolog.FStr "file" s])
    /\
    match ctxerr.Err (ctxerr.From (zerolog.Event_GetCtx e)) with
    | Some err =>
        zerolog.fields (callerHook_Run st e level msg)
        = (zerolog.fields e
           ++ map (fun kv => zerolog.FAny (fst kv) (snd kv))
                  (ctxerr.Ctx (ctxerr.From (zerolog.Event_GetCtx e)))
           ++ [zerolog.FErr "error" err]
           ++ callerPart)%list
    | None =>
        zerolog.fields (callerHook_Run st e level msg)
        = (zerolog.fields e ++ callerPart)%list
    end.
Proof.
  intros st e level msg.
  destruct (callerHook_Run_fields st e level msg) as (cp & Hrun & Hcp).
  exists cp. split; [assumption|].
  rewrite Hrun. unfold withErrCtx.
  destruct (ctxerr.Err (ctxerr.From (zerolog.Event_GetCtx e))) as [err|].
  - simpl. now rewrite <- !app_assoc.
  - reflexivity.
Qed.

(** C8.  On every invocation of the hook, with [e1] the event after the
    error-context step (its fields are those of the event, then the pairs
    and the error of the error context if it carries an error): at the
    levels error, fatal and panic, if frame 3 of the stack (three frames
    above the hook) resolves to [fr], the fields of the event the hook
    returns are those of [e1] and then the string field ["file"] holding
    [file:line] of [fr]; if the stack has no such frame they are those of
    [e1], and the hook returns all the same.  At every level below error
    the fields are those of [e1]: no call site is written, and every string
    field of the result was in the event before the hook.  (The two values
    of the level type above panic, [NoLevel] and [Disabled], are not
    severities; no call site is written at them either.)  The hook leaves
    the [context.Context] of the event as it was. *)
Theorem C8_caller_at_high_severity :
  forall (st : runtime.Stack) (e : zerolog.Event) (level : zerolog.Level)
         (msg : string),
    ((zerolog.ErrorLevel <= level <= zerolog.PanicLevel)%Z ->
       (forall fr, nth_error st 3 = Some fr ->
          zerolog.fields (callerHook_Run st e level msg)
          = (zerolog.fields (withErrCtx e)
             ++ [zerolog.FStr "file"
                   (runtime.file fr ++ ":" ++ fmt.Itoa (runtime.line fr))])%list)
       /\ (nth_error st 3 = None ->
           zerolog.fields (callerHook_Run st e level msg)
           = zerolog.fields (withErrCtx e)))
    /\
    ((level < zerolog.ErrorLevel)%Z ->
       zerolog.fields (callerHook_Run st e level msg)
       = zerolog.fields (withErrCtx e)
       /\ (forall key val,
             In (zerolog.FStr key val)
                (zerolog.fields (callerHook_Run st e level msg)) ->
             In (zerolog.FStr key val) (zerolog.fields e)))
    /\
    ((zerolog.PanicLevel < level)%Z ->
       zerolog.fields (callerHook_Run st e level msg)
       = zerolog.fields (withErrCtx e))
    /\
    zerolog.fields (withErrCtx e)
    = (zerolog.fields e
       ++ match ctxerr.Err (ctxerr.From (zerolog.Event_GetCtx e)) with
          | Some err =>
              map (fun kv => zerolog.FAny (fst kv) (snd kv))
                  (ctxerr.Ctx (ctxerr.From (zerolog.Event_GetCtx e)))
              ++ [zerolog.FErr "error" err]
          | None => []
          end)%list
    /\
    zerolog.goctx (callerHook_Run st e level msg) = zerolog.goctx e.
Proof.
  intros st e level msg.
  assert (Herr : zerolog.fields (withErrCtx e)
                 = (zerolog.fields e
                    ++ match ctxerr.Err (ctxerr.From (zerolog.Event_GetCtx e)) with
                       | Some err =>
                           map (fun kv => zerolog.FAny (fst kv) (snd kv))
                               (ctxerr.Ctx (ctxerr.From (zerolog.Event_GetCtx e)))
                           ++ [zerolog.FErr "error" err]
                       | None => []
                       end)%list).
  { unfold withErrCtx.
    destruct (ctxerr.Err (ctxerr.From (zerolog.Event_GetCtx e))) as [err|].
    - simpl. now rewrite <- app_assoc.
    - now rewrite app_nil_r. }
  assert (Hctx : zerolog.goctx (withErrCtx e) = zerolog.goctx e).
  { unfold withErrCtx.
    destruct (ctxerr.Err (ctxerr.From (zerolog.Event_GetCtx e)));
      reflexivity. }
  assert (Hlow : ((level =? zerolog.ErrorLevel)%Z
                  || (level =? zerolog.FatalLevel)%Z
                  || (level =? zerolog.PanicLevel)%Z) = false ->
                 callerHook_Run st e level msg = withErrCtx e).
  { intros Hout. unfold callerHook_Run. fold (withErrCtx e). now rewrite Hout. }
  split; [|split; [|split; [|split]]].
  - intros Hlevel.
    assert (Hin : ((level =? zerolog.ErrorLevel)%Z
                   || (level =? zerolog.FatalLevel)%Z
                   || (level =? zerolog.PanicLevel)%Z) = true).
    { unfold zerolog.ErrorLevel, zerolog.FatalLevel, zerolog.PanicLevel in *.
      assert (level = 3 \/ level = 4 \/ level = 5)%Z as [->|[->| ->]] by lia;
        reflexivity. }
    unfold callerHook_Run. fold (withErrCtx e). rewrite Hin.
    unfold runtime.Caller. split.
    + intros fr ->. reflexivity.
    + intros ->. reflexivity.
  - intros Hlevel.
    rewrite Hlow.
    + split; [reflexivity|]. intros key val. rewrite Herr, in_app_iff.
      intros [Hin|Hin]; [assumption|]. exfalso.
      destruct (ctxerr.Err (ctxerr.From (zerolog.Event_GetCtx e))) as [err|];
        [|destruct Hin].
      apply in_app_iff in Hin as [Hin|[Hin|[]]]; [|discriminate].
      apply in_map_iff in Hin as (kv & Hkv & _). discriminate.
    + unfold zerolog.ErrorLevel, zerolog.FatalLevel, zerolog.PanicLevel in *.
      rewrite !orb_false_iff, !Z.eqb_neq. lia.
  - intros Hlevel. rewrite Hlow; [reflexivity|].
    unfold zerolog.ErrorLevel, zerolog.FatalLevel, zerolog.PanicLevel in *.
    rewrite !orb_false_iff, !Z.eqb_neq. lia.
  - exact Herr.
  - rewrite <- Hctx. unfold callerHook_Run. fold (withErrCtx e).
    destruct ((level =? zerolog.ErrorLevel)%Z || (level =? zerolog.FatalLevel)%Z
              || (level =? zerolog.PanicLevel)%Z); [|reflexivity].
    unfold runtime.Caller. destruct (nth_error st 3); reflexivity.
Qed.

Lemma C8_witness :
  zerolog.fields
    (callerHook_Run someStack failingEvent zerolog.ErrorLevel "an error occurred")
  = [zerolog.FAny "manifest" (VString "x");
     zerolog.FErr "error" "boom";
     zerolog.FStr "file" "main.go:42"]
  /\ zerolog.fields
       (callerHook_Run [] failingEvent zerolog.PanicLevel "an error occurred")
     = [zerolog.FAny "manifest" (VString "x"); zerolog.FErr "error" "boom"]
  /\ zerolog.fields
       (callerHook_Run someStack failingEvent zerolog.WarnLevel "a warning")
     = [zerolog.FAny "manifest" (VString "x"); zerolog.FErr "error" "boom"].
Proof.
  pose proof (C8_caller_at_high_severity someStack failingEvent
                zerolog.ErrorLevel "an error occurred") as [H1 _].
  pose proof (C8_caller_at_high_severity [] failingEvent
                zerolog.PanicLevel "an error occurred") as [H2 _].
  pose proof (C8_caller_at_high_severity someStack failingEvent
                zerolog.WarnLevel "a warning") as (_ & H3 & _).
  split; [|split].
  - rewrite (proj1 (H1 ltac:(unfold zerolog.ErrorLevel, zerolog.PanicLevel; lia))
               {| runtime.file := "main.go"; runtime.line := 42 |} eq_refl).
    reflexivity.
  - rewrite (proj2 (H2 ltac:(unfold zerolog.ErrorLevel, zerolog.PanicLevel; lia))
               eq_refl).
    reflexivity.
  - rewrite (proj1 (H3 ltac:(unfold zerolog.ErrorLevel, zerolog.WarnLevel; lia))).
    reflexivity.
Defined.

(** ** C9: termination *)










(** ** C10: a marked field that holds a record *)

(** C10.  For every field [i] of a walked record whose value normalizes to
    a record [s], whatever its tag: the loop body is the recursive call on
    [s] under the path of the field; and when [s] is acyclic, with [ls] the
    leaves of [s], the loop body with enough fuel appends the entries of
    [ls] under that path (or panics, if a leaf cannot be read), writes
    nothing at the path of the field itself, in particular no placeholder,
    and writes every unmarked leaf under [s] with its own value. *)
Theorem C10_marked_record_field_is_walked :
  forall (h : Heap) (path : string) (v : Value) (vType : RType) (i : nat)
         (f : StructField) (fv : Value) (fuel0 : nat) (s : Value),
    Type_Field vType i = Ret f ->
    Value_Field v i = Ret fv ->
    asStruct fuel0 h fv = Ret (s, true) ->
    let here := (path ++ ".") ++ Name f in
    (forall fuel' recur ctx,
        fuel0 <= fuel' ->
        censorField recur fuel' h path v vType ctx i = recur ctx here s)
    /\
    (acyclic h s ->
     exists (fuel : nat) (ls : list Leaf),
       leaves fuel h s = Ret ls
       /\ (forall fuel' ctx,
             fuel <= fuel' ->
             censorField (censorFields fuel' h) fuel' h path v vType ctx i
             = if forallb readable ls
               then Ret (ctx ++ map (entry here) ls)%list
               else Panic InterfacePanic)
       /\ (forall e, In e (map (entry here) ls) -> fieldKey e <> here)
       /\ (forall l, In l ls -> isSecretLeaf l = false ->
             In (zerolog.FAny (here ++ dotted (leafNames l)) (leafValue l))
                (map (entry here) ls))).
Proof.
  intros h path v vType i f fv fuel0 s Ht Hv Hs here.
  assert (Hbody : forall fuel' recur ctx,
             fuel0 <= fuel' ->
             censorField recur fuel' h path v vType ctx i = recur ctx here s).
  { intros m recur ctx Hle.
    apply censorField_nested with (fv := fv); try assumption.
    rewrite (asStruct_mono fuel0 m) by (assumption || rewrite Hs; auto with outcome).
    assumption. }
  split; [exact Hbody|].
  intros Hacc.
  destruct (censorFields_acyclic h s Hacc) as (n & ls & Hl & Hwalk).
  exists (Nat.max fuel0 n), ls. split; [|split; [|split]].
  - rewrite (leaves_mono n) by (lia || rewrite Hl; auto with outcome).
    assumption.
  - intros m ctx Hle. rewrite Hbody by lia. apply Hwalk. lia.
  - intros e He. apply in_map_iff in He as (l & <- & Hin).
    destruct (leaves_positions n h s ls Hl) as (idxs & Hf & _).
    clear - Hf Hin. induction Hf as [|idx l' idxs ls' Hl' _ IH];
      [destruct Hin|].
    destruct Hin as [->|Hin]; [|auto].
    eapply entry_key_below; eauto.
  - intros l Hin Hu. apply in_map_iff. exists l. split; [|assumption].
    unfold entry. unfold isSecretLeaf in Hu. now rewrite Hu.
Qed.

Lemma markedCreds_acyclic :
  acyclic emptyHeap
    (Val (VStruct [field "User" [] (VString "admin");
                   field "Pass" [] (VString "hunter2")]) flag0).
Proof. walk_acyclic 8. Defined.

Lemma C10_witness :
  exists fuel,
    censorField (censorFields fuel emptyHeap) fuel emptyHeap "cfg"
                (Val (VStruct markedCreds) flag0)
                (TStruct (map fst markedCreds)) [] 0
    = Ret [zerolog.FAny "cfg.Creds.User" (VString "admin");
           zerolog.FAny "cfg.Creds.Pass" (VString "hunter2")].
Proof.
  destruct (C10_marked_record_field_is_walked
              emptyHeap "cfg" (Val (VStruct markedCreds) flag0)
              (TStruct (map fst markedCreds)) 0 _ _ 1 _
              eq_refl eq_refl eq_refl) as (_ & Hwalk).
  destruct (Hwalk markedCreds_acyclic) as (fuel & ls & Hl & Hrun & _).
  pose proof (leaves_det fuel 2 emptyHeap _ ls _ Hl eq_refl) as ->.
  exists fuel. exact (Hrun fuel [] (le_n fuel)).
Defined.

(** * Further properties of the code *)

(** ** asStruct *)

(** X1.  [asStruct] never panics -- each of its reflect calls is guarded by
    the kind test before it -- and whenever its loop ends it returns either
    the zero Value with [false] or a struct Value with [true]. *)
Theorem X1_asStruct_result :
  forall (fuel : nat) (h : Heap) (v : Value),
    asStruct fuel h v = OutOfFuel
    \/ asStruct fuel h v = Ret (Zero, false)
    \/ exists fs fl, asStruct fuel h v = Ret (Val (VStruct fs) fl, true).
Proof.
  intros fuel h v.
  destruct (asStruct fuel h v) as [[s [|]]|msg|] eqn:E.
  - right. right. destruct (asStruct_true _ _ _ _ E) as (fs & fl & ->). eauto.
  - right. left. now rewrite (asStruct_false _ _ _ _ E).
  - now elim (asStruct_no_panic _ _ _ _ E).
  - now left.
Qed.

(** X2.  [asStruct] answers [false] exactly on the dead ends: the values
    that are a nil pointer at some level of dereferencing or, behind the
    pointers, not a struct. *)
Theorem X2_asStruct_false_iff_deadEnd :
  forall (h : Heap) (v : Value),
    (exists fuel, asStruct fuel h v = Ret (Zero, false)) <-> deadEnd h v.
Proof.
  intros h v. split.
  - intros (fuel & H). exact (asStruct_deadEnd _ _ _ _ H).
  - intros Hd. destruct (deadEnd_asStruct h v Hd) as (n & Hn).
    exists n. apply Hn. lia.
Qed.

Lemma asStruct_true_chain fuel h :
  forall p fl fs fl',
    asStruct fuel h (Val p fl) = Ret (Val (VStruct fs) fl', true) ->
    fl' = fl /\ exists n, n < fuel /\ pointsTo h p n (VStruct fs).
Proof.
  induction fuel as [|k IH]; intros p fl fs fl'; [discriminate|].
  rewrite asStruct_unfold.
  destruct p as [| | | | | |[a|]|fs0]; try discriminate.
  - intros H. destruct (IH _ _ _ _ H) as (-> & n & Hn & Hp).
    split; [reflexivity|]. exists (S n). split; [lia|]. simpl. eauto.
  - intros [= <- <-]. split; [reflexivity|]. exists 0. split; [lia|reflexivity].
Qed.

(** X3.  [asStruct] answers [true] exactly on the values that are a struct
    behind some number of non-nil pointers, and what it returns is that
    struct, with the flag of the Value it was given. *)
Theorem X3_asStruct_true_iff_chain :
  forall (h : Heap) (p : GoValue) (fl : flag)
         (fs : list (StructField * GoValue)) (fl' : flag),
    (exists fuel, asStruct fuel h (Val p fl) = Ret (Val (VStruct fs) fl', true))
    <-> (fl' = fl /\ exists n, pointsTo h p n (VStruct fs)).
Proof.
  intros h p fl fs fl'. split.
  - intros (fuel & H).
    destruct (asStruct_true_chain fuel h p fl fs fl' H) as (-> & n & _ & Hp).
    eauto.
  - intros (-> & n & Hp). exists (n + 1).
    now rewrite (asStruct_pointsTo h n p (VStruct fs) 1 fl Hp).
Qed.

Lemma asStruct_short_of_fuel h n :
  forall p r fuel fl,
    pointsTo h p n r -> fuel <= n -> asStruct fuel h (Val p fl) = OutOfFuel.
Proof.
  induction n as [|n IH]; intros p r fuel fl Hp Hle.
  - now replace fuel with 0 by lia.
  - destruct fuel as [|k]; [reflexivity|].
    destruct Hp as (a & -> & Hp). rewrite asStruct_unfold.
    apply (IH _ r); [assumption|lia].
Qed.

Lemma asStruct_pointer_cycle h p n :
  pointsTo h p (S n) p ->
  forall fuel fl, asStruct fuel h (Val p fl) = OutOfFuel.
Proof.
  intros Hp fuel. induction fuel as [fuel IH] using lt_wf_ind. intros fl.
  destruct (le_lt_dec fuel (S n)) as [Hle|Hlt].
  - exact (asStruct_short_of_fuel h (S n) p p fuel fl Hp Hle).
  - replace fuel with (S n + (fuel - S n)) by lia.
    rewrite (asStruct_pointsTo h (S n) p p (fuel - S n) fl Hp).
    apply IH. lia.
Qed.

(** X4.  On a pointer that leads back to itself through pointers only,
    the loop of [asStruct] never ends, so neither does the walk of that
    value. *)
Theorem X4_pointer_cycle_never_ends :
  forall (h : Heap) (p : GoValue) (n : nat),
    pointsTo h p (S n) p ->
    (forall fuel fl, asStruct fuel h (Val p fl) = OutOfFuel)
    /\ (forall fuel ctx root,
          WithCensoredSecretFields fuel h ctx root p = OutOfFuel).
Proof.
  intros h p n Hp. split.
  - now apply (asStruct_pointer_cycle h p n).
  - intros fuel ctx root. unfold WithCensoredSecretFields.
    destruct Hp as (a & -> & Hp'). simpl ValueOf.
    destruct fuel as [|k]; [reflexivity|]. simpl.
    rewrite (asStruct_pointer_cycle h (VPointer (Some a)) n
               (ex_intro _ a (conj eq_refl Hp')) k flag0).
    reflexivity.
Qed.

Lemma X4_witness :
  pointsTo pointerLoop (VPointer (Some 0)) 1 (VPointer (Some 0))
  /\ (forall fuel ctx root,
        WithCensoredSecretFields fuel pointerLoop ctx root (VPointer (Some 0))
        = OutOfFuel).
Proof.
  assert (Hp : pointsTo pointerLoop (VPointer (Some 0)) 1 (VPointer (Some 0)))
    by (exists 0; split; reflexivity).
  split; [exact Hp|].
  exact (proj2 (X4_pointer_cycle_never_ends pointerLoop (VPointer (Some 0)) 0
                  Hp)).
Defined.

(** ** Panics *)

(** X5.  Whatever the value, the heap and the fuel, the only panic the walk
    can end in is the one of [Value.Interface] on a read-only Value: every
    other reflect call it makes ([IsNil], [Elem], [Type], [NumField],
    [Field]) is guarded. *)
Theorem X5_only_Interface_panics :
  forall (fuel : nat) (h : Heap) (ctx : zerolog.Context) (root : string)
         (v : GoValue) (msg : string),
    WithCensoredSecretFields fuel h ctx root v = Panic msg ->
    msg = InterfacePanic.
Proof.
  intros fuel h ctx root v msg. apply censorFields_panic.
Qed.

Lemma X5_witness :
  WithCensoredSecretFields 2 emptyHeap [] "cfg"
    (VStruct [unexported "name" [] (VString "x")])
  = Panic InterfacePanic.
Proof.
  assert (H : exists msg,
             WithCensoredSecretFields 2 emptyHeap [] "cfg"
               (VStruct [unexported "name" [] (VString "x")]) = Panic msg)
    by (eexists; reflexivity).
  destruct H as (msg & H).
  rewrite <- (X5_only_Interface_panics _ _ _ _ _ _ H). exact H.
Defined.

Lemma asStruct_flag fuel h p fl s :
  asStruct fuel h (Val p fl) = Ret (s, true) ->
  exists fs, s = Val (VStruct fs) fl.
Proof.
  intros H. destruct (asStruct_true _ _ _ _ H) as (fs & fl' & ->).
  destruct (asStruct_true_chain _ _ _ _ _ _ H) as (-> & _). eauto.
Qed.

(** With unexported fields only where a struct is embedded, the walk does
    not panic. *)
Lemma censorFields_exportedOrEmbedded fuel :
  forall h v ctx path msg,
    exportedOrEmbedded h v -> censorFields fuel h ctx path v <> Panic msg.
Proof.
  induction fuel as [|n IH]; intros h v ctx path msg [Hst Hexp] Hp;
    [discriminate|].
  destruct (asStruct n h v) as [[s [|]]| |] eqn:E.
  - destruct v as [|p fl0]; [destruct n; discriminate|].
    destruct (asStruct_flag _ _ _ _ _ E) as (fs & ->).
    destruct (asStruct_reach _ _ _ _ E) as [Hreach _].
    rewrite (censorFields_struct _ _ ctx path _ _ _ E) in Hp.
    apply foldM_Panic_In in Hp as (a & [f g] & Hin & Hp).
    rewrite walkField_unfold in Hp.
    destruct (asStruct n h (Val g (fieldFlag fl0 f))) as [[s' [|]]| |] eqn:E';
      cbn [bind fst snd] in Hp.
    + destruct (asStruct_flag _ _ _ _ _ E') as (fs' & ->).
      destruct (asStruct_reach _ _ _ _ E') as [Hreach' _].
      apply (IH h (Val (VStruct fs') (fieldFlag fl0 f)) a
               ((path ++ ".") ++ Name f) msg); [|assumption].
      split.
      * destruct (Hexp fs fl0 Hreach f g Hin) as [He|[Han _]];
          unfold fieldFlag; simpl; rewrite Hst; [rewrite He|rewrite Han];
          simpl; now rewrite ?andb_false_r.
      * intros fs2 fl2 Hr. apply (Hexp fs2 fl2).
        eapply rt_trans; [exact Hreach|].
        eapply rt_trans; [apply rt_step, (refers_field h fs fl0 f g Hin)|].
        eapply rt_trans; [exact Hreach'|exact Hr].
    + destruct (isFieldSecret f); [discriminate|].
      destruct (Hexp fs fl0 Hreach f g Hin) as [He|[_ (k & s2 & Hs2)]].
      * simpl in Hp. unfold flagRO, fieldFlag in Hp. simpl in Hp.
        rewrite Hst, He in Hp. discriminate.
      * assert (Habs : asStruct n h (Val g (fieldFlag fl0 f))
                       = asStruct k h (Val g (fieldFlag fl0 f)))
          by (apply asStruct_agree; [rewrite E'|rewrite Hs2]; auto with outcome).
        rewrite E', Hs2 in Habs. discriminate.
    + now elim (asStruct_no_panic _ _ _ _ E').
    + discriminate.
  - rewrite (censorFields_deadend _ _ ctx path _ _ E) in Hp. discriminate.
  - now elim (asStruct_no_panic _ _ _ _ E).
  - simpl in Hp. rewrite E in Hp. discriminate.
Qed.

(** The structs reachable from a value written out in full are found by
    walking it, at most [n] references deep. *)
Ltac walk_reach Hr n :=
  lazymatch n with
  | O => idtac
  | S ?n' =>
      let x := fresh "x" in
      let Hstep := fresh "Hstep" in
      let Hrest := fresh "Hrest" in
      inversion Hr as [|x ? Hstep Hrest]; subst; clear Hr;
      try (inversion Hstep; subst; clear Hstep;
           cbv [field unexported embedded] in *; simpl in *;
           repeat match goal with
                  | H : _ \/ _ |- _ => destruct H
                  | H : False |- _ => destruct H
                  | H : (_, _) = (_, _) |- _ => injection H as <- <-
                  end;
           walk_reach Hrest n')
  end.

(** X6.  For an acyclic value whose only unexported fields are embedded
    structs, or embedded pointers that lead to a struct through non-nil
    pointers only, the walk with enough fuel returns: it appends the
    entries of the leaves and does not panic.  In particular it returns for
    every acyclic value with exported fields only.  (An unexported embedded
    pointer that is nil is not covered: it is a leaf, read through
    [Value.Interface].) *)
Theorem X6_exported_fields_never_panic :
  forall (h : Heap) (v : GoValue),
    acyclic h (ValueOf v) ->
    exportedOrEmbedded h (ValueOf v) ->
    exists (fuel : nat) (ls : list Leaf),
      leaves fuel h (ValueOf v) = Ret ls
      /\ forall fuel' ctx root,
          fuel <= fuel' ->
          WithCensoredSecretFields fuel' h ctx root v
          = Ret (ctx ++ map (entry root) ls)%list.
Proof.
  intros h v Hacc Hexp.
  destruct (censorFields_acyclic h _ Hacc) as (fuel & ls & Hl & Hwalk).
  exists fuel, ls. split; [assumption|].
  intros m ctx root Hle. unfold WithCensoredSecretFields.
  rewrite (Hwalk m ctx root Hle).
  destruct (forallb readable ls) eqn:Hr; [reflexivity|].
  exfalso. apply (censorFields_exportedOrEmbedded m h (ValueOf v) ctx root
                    InterfacePanic Hexp).
  rewrite (Hwalk m ctx root Hle). rewrite ?Hr. reflexivity.
Qed.

Lemma withEmbedded_acyclic :
  acyclic emptyHeap (ValueOf (VStruct withEmbedded)).
Proof. cbv [withEmbedded embedded field ValueOf]. walk_acyclic 8. Defined.

Lemma withEmbedded_exportedOrEmbedded :
  exportedOrEmbedded emptyHeap (ValueOf (VStruct withEmbedded)).
Proof.
  split; [reflexivity|]. intros fs fl Hr f g Hin.
  apply clos_rt_rt1n in Hr. cbv [withEmbedded embedded field ValueOf] in Hr.
  walk_reach Hr 4; simpl in Hin;
    repeat match goal with
           | H : _ \/ _ |- _ => destruct H
           | H : False |- _ => destruct H
           | H : (_, _) = (_, _) |- _ => injection H as <- <-
           end;
    first [ left; reflexivity
          | right; split; [reflexivity|exists 1; eexists; reflexivity] ].
Defined.

Lemma X6_witness :
  exists fuel,
    WithCensoredSecretFields fuel emptyHeap [] "r" (VStruct withEmbedded)
    = Ret [zerolog.FAny "r.base.ID" (VInt 7);
           zerolog.FAny "r.Name" (VString "n")].
Proof.
  destruct (X6_exported_fields_never_panic emptyHeap (VStruct withEmbedded)
              withEmbedded_acyclic withEmbedded_exportedOrEmbedded)
    as (fuel & ls & Hl & Hwalk).
  pose proof (leaves_det fuel 3 emptyHeap _ ls _ Hl eq_refl) as ->.
  exists fuel. exact (Hwalk fuel [] "r" (le_n fuel)).
Defined.

(** ** The accumulator *)

Lemma bind_bind {A B C : Type} (m : outcome A) (k : A -> outcome B)
    (k' : B -> outcome C) :
  bind (bind m k) k' = bind m (fun a => bind (k a) k').
Proof. destruct m; reflexivity. Qed.

Lemma bind_ext {A B : Type} (m : outcome A) (k k' : A -> outcome B) :
  (forall a, k a = k' a) -> bind m k = bind m k'.
Proof. intros H. destruct m; simpl; auto. Qed.

(** A loop whose body only appends runs the same on a longer accumulator. *)
Lemma foldM_prefix {X E : Type} (f : list E -> X -> outcome (list E))
    (l : list X) :
  (forall pre a x, In x l ->
      f (pre ++ a)%list x = bind (f a x) (fun out => Ret (pre ++ out)%list)) ->
  forall pre a,
    foldM f l (pre ++ a)%list
    = bind (foldM f l a) (fun out => Ret (pre ++ out)%list).
Proof.
  induction l as [|x l IH]; intros Hf pre a; [reflexivity|].
  simpl. rewrite (Hf pre a x (or_introl eq_refl)). rewrite !bind_bind.
  apply bind_ext. intros a1. simpl. apply IH.
  intros pre' a' y Hy. apply Hf. now right.
Qed.

Lemma censorFields_prefix fuel :
  forall h pre ctx path v,
    censorFields fuel h (pre ++ ctx)%list path v
    = bind (censorFields fuel h ctx path v)
           (fun out => Ret (pre ++ out)%list).
Proof.
  induction fuel as [|n IH]; intros h pre ctx path v; [reflexivity|].
  destruct (asStruct n h v) as [[s [|]]| |] eqn:E.
  - destruct (asStruct_true _ _ _ _ E) as (fs & fl & ->).
    rewrite !(censorFields_struct _ _ _ path _ _ _ E).
    apply foldM_prefix. intros pre' a [f g] _. rewrite !walkField_unfold.
    destruct (asStruct n h (Val g (fieldFlag fl f))) as [[s' [|]]| |];
      cbn [bind fst snd]; try reflexivity.
    + apply IH.
    + destruct (isFieldSecret f); cbn [bind].
      * unfold zerolog.Context_Str. now rewrite app_assoc.
      * destruct (Value_Interface _); cbn [bind]; try reflexivity.
        unfold zerolog.Context_Any. now rewrite app_assoc.
  - rewrite !(censorFields_deadend _ _ _ path _ _ E). reflexivity.
  - now elim (asStruct_no_panic _ _ _ _ E).
  - simpl. rewrite E. reflexivity.
Qed.

(** X7.  The walk only appends to the accumulator, and what it appends
    does not depend on what the accumulator holds: walking from [ctx] is
    walking from the empty accumulator and putting [ctx] in front -- with
    the same fuel, and with the same panic or exhaustion if there is
    one. *)
Theorem X7_accumulator_is_only_appended_to :
  forall (fuel : nat) (h : Heap) (ctx : zerolog.Context) (root : string)
         (v : GoValue),
    WithCensoredSecretFields fuel h ctx root v
    = bind (WithCensoredSecretFields fuel h [] root v)
           (fun out => Ret (ctx ++ out)%list).
Proof.
  intros fuel h ctx root v. unfold WithCensoredSecretFields.
  rewrite <- (censorFields_prefix fuel h ctx [] root (ValueOf v)).
  now rewrite app_nil_r.
Qed.

(** ** What the walk does not look into *)

(** X8.  The walk does not descend into slices, maps and values of
    interface type: an unmarked, readable field that holds one is written
    as one entry holding the whole value, whatever is inside it -- records
    with marked fields included. *)
Theorem X8_containers_are_written_whole :
  forall (recur : zerolog.Context -> string -> Value -> outcome zerolog.Context)
         (fuel : nat) (h : Heap) (path : string) (fl : flag)
         (ctx : zerolog.Context) (pre post : list (StructField * GoValue))
         (f : StructField) (g : GoValue),
    isContainer g = true ->
    isFieldSecret f = false ->
    Value_CanInterface (Val g (fieldFlag fl f)) = true ->
    let fs := (pre ++ (f, g) :: post)%list in
    censorField recur (S fuel) h path (Val (VStruct fs) fl)
                (TStruct (map fst fs)) ctx (length pre)
    = Ret (ctx ++ [zerolog.FAny ((path ++ ".") ++ Name f) g])%list.
Proof.
  intros recur fuel h path fl ctx pre post f g Hc Hs Hr fs. unfold fs.
  rewrite (censorField_deadend recur (S fuel) h path _ _ ctx (length pre)
             f g (fieldFlag fl f) Zero).
  - rewrite Hs. simpl in Hr. apply negb_true_iff in Hr. now rewrite Hr.
  - simpl. rewrite nth_error_map, nth_error_app2, Nat.sub_diag by lia.
    reflexivity.
  - simpl. rewrite nth_error_app2, Nat.sub_diag by lia. reflexivity.
  - rewrite asStruct_unfold. destruct g; try discriminate; reflexivity.
Qed.

Lemma X8_witness :
  censorField (censorFields 1 emptyHeap) 1 emptyHeap "r"
              (Val (VStruct [field "Items" [] secretItems]) flag0)
              (TStruct [fst (field "Items" [] secretItems)]) [] 0
  = Ret [zerolog.FAny "r.Items" secretItems].
Proof.
  exact (X8_containers_are_written_whole
           (censorFields 1 emptyHeap) 0 emptyHeap "r" flag0 [] [] []
           (fst (field "Items" [] secretItems)) secretItems
           eq_refl eq_refl eq_refl).
Defined.

(** ** Unexported struct fields *)

Lemma concatM_Forall {X Y : Type} (P : Y -> Prop) (f : X -> outcome (list Y))
    (l : list X) :
  (forall x ys, In x l -> f x = Ret ys -> Forall P ys) ->
  forall ys, concatM f l = Ret ys -> Forall P ys.
Proof.
  induction l as [|x l IH]; intros Hf ys Hc.
  - injection Hc as <-. constructor.
  - apply concatM_Ret_cons in Hc as (y1 & y2 & H1 & H2 & ->).
    apply Forall_app. split.
    + exact (Hf x y1 (or_introl eq_refl) H1).
    + apply IH; [|assumption]. intros x' ys' Hin. apply Hf. now right.
Qed.

(** The sticky read-only bit of a Value is on every leaf under it. *)
Lemma leaves_sticky fuel :
  forall h g fl ls,
    flagStickyRO fl = true ->
    leaves fuel h (Val g fl) = Ret ls ->
    Forall (fun l => flagStickyRO (leafFlag l) = true) ls.
Proof.
  induction fuel as [|n IH]; intros h g fl ls Hst Hl; [discriminate|].
  rewrite leaves_unfold in Hl.
  destruct (asStruct n h (Val g fl)) as [[s [|]]| |] eqn:E; cbn [bind] in Hl;
    try discriminate.
  - destruct (asStruct_flag _ _ _ _ _ E) as (fs & ->).
    revert ls Hl. apply concatM_Forall. intros [f g'] ys _ Hy.
    assert (Hst' : flagStickyRO (fieldFlag fl f) = true)
      by (unfold fieldFlag; simpl; now rewrite Hst).
    unfold fieldLeaves in Hy. cbn [fst snd] in Hy.
    destruct (asStruct n h (Val g' (fieldFlag fl f))) as [[s' [|]]| |] eqn:E';
      cbn [bind fst snd] in Hy; try discriminate.
    + destruct (asStruct_flag _ _ _ _ _ E') as (fs' & ->).
      apply bind_Ret_inv in Hy as (ls' & Hls' & Hy). injection Hy as <-.
      apply Forall_map. simpl. exact (IH _ _ _ _ Hst' Hls').
    + injection Hy as <-. repeat constructor. exact Hst'.
  - apply asStruct_false in E as ->. injection Hl as <-. constructor.
Qed.

Lemma forallb_readable_sticky ls :
  Forall (fun l => flagStickyRO (leafFlag l) = true) ls ->
  forallb readable ls = forallb isSecretLeaf ls.
Proof.
  induction 1 as [|l ls Hl _ IH]; simpl; [reflexivity|].
  rewrite IH. unfold readable, isSecretLeaf. simpl. unfold flagRO.
  rewrite Hl. simpl. now rewrite orb_false_r.
Qed.

(** X9.  The Value of an unexported field that is not embedded carries the
    sticky read-only bit, and so does every leaf under it, exported or not:
    the walk of such a Value, when it is acyclic, returns only if every
    leaf under it is marked, and panics otherwise. *)
Theorem X9_unexported_named_struct_needs_all_marked :
  forall (h : Heap) (fl0 : flag) (f : StructField) (g : GoValue),
    IsExported f = false ->
    Anonymous f = false ->
    acyclic h (Val g (fieldFlag fl0 f)) ->
    exists (fuel : nat) (ls : list Leaf),
      leaves fuel h (Val g (fieldFlag fl0 f)) = Ret ls
      /\ forall fuel' ctx path,
          fuel <= fuel' ->
          censorFields fuel' h ctx path (Val g (fieldFlag fl0 f))
          = if forallb isSecretLeaf ls
            then Ret (ctx ++ map (entry path) ls)%list
            else Panic InterfacePanic.
Proof.
  intros h fl0 f g He Ha Hacc.
  destruct (censorFields_acyclic h _ Hacc) as (fuel & ls & Hl & Hwalk).
  exists fuel, ls. split; [assumption|].
  intros m ctx path Hle. rewrite (Hwalk m ctx path Hle).
  rewrite (forallb_readable_sticky ls); [reflexivity|].
  apply (leaves_sticky fuel h g (fieldFlag fl0 f) ls); [|assumption].
  unfold fieldFlag. simpl. rewrite He, Ha. simpl. apply orb_true_r.
Qed.

Lemma namedBase_acyclic :
  acyclic emptyHeap (Val (snd namedBase) (fieldFlag flag0 (fst namedBase))).
Proof. cbv [namedBase field unexported fst snd]. walk_acyclic 8. Defined.

Lemma X9_witness :
  exists fuel,
    censorFields fuel emptyHeap [] "r.b"
      (Val (snd namedBase) (fieldFlag flag0 (fst namedBase)))
    = Panic InterfacePanic.
Proof.
  destruct (X9_unexported_named_struct_needs_all_marked
              emptyHeap flag0 (fst namedBase) (snd namedBase)
              eq_refl eq_refl namedBase_acyclic)
    as (fuel & ls & Hl & Hwalk).
  pose proof (leaves_det fuel 2 emptyHeap _ ls _ Hl eq_refl) as ->.
  exists fuel. exact (Hwalk fuel [] "r.b" (le_n fuel)).
Defined.

(** ** Nested records behind pointers *)

Lemma walkField_pointsTo recur h p n fs0 fuel path fl ctx f :
  pointsTo h p n (VStruct fs0) ->
  walkField recur (n + S fuel) h path fl ctx (f, p)
  = walkField recur (n + S fuel) h path fl ctx (f, VStruct fs0).
Proof.
  intros Hp. rewrite !walkField_unfold.
  rewrite (asStruct_pointsTo h n p (VStruct fs0) (S fuel) _ Hp).
  replace (n + S fuel) with (S (n + fuel)) by lia. reflexivity.
Qed.

(** X10.  A field that holds a record behind any number of non-nil
    pointers is walked like the same field holding the record by value: the
    two records give the same outcome, with any fuel beyond what the chain
    takes. *)
Theorem X10_nested_pointer_as_by_value :
  forall (h : Heap) (p : GoValue) (n : nat)
         (fs0 pre post : list (StructField * GoValue)) (f : StructField)
         (fuel : nat) (ctx : zerolog.Context) (root : string),
    pointsTo h p n (VStruct fs0) ->
    WithCensoredSecretFields (n + (2 + fuel)) h ctx root
      (VStruct (pre ++ (f, p) :: post))
    = WithCensoredSecretFields (n + (2 + fuel)) h ctx root
        (VStruct (pre ++ (f, VStruct fs0) :: post)).
Proof.
  intros h p n fs0 pre post f fuel ctx root Hp.
  unfold WithCensoredSecretFields. simpl ValueOf.
  replace (n + (2 + fuel)) with (S (n + S fuel)) by lia.
  rewrite !(censorFields_struct (n + S fuel) h ctx root _ _ flag0)
    by (replace (n + S fuel) with (S (n + fuel)) by lia; reflexivity).
  rewrite !foldM_app. apply bind_ext. intros a. simpl.
  now rewrite (walkField_pointsTo _ h p n fs0 fuel root flag0 a f Hp).
Qed.

Lemma X10_witness :
  WithCensoredSecretFields 3 testHeap [] "config" (testConfig (Some 0))
  = WithCensoredSecretFields 3 testHeap [] "config"
      (VStruct [field "Username" [("json", "username")] (VString "admin");
                field "Password" (("json", "password") :: secret)
                      (VString "super_secret_password");
                field "APIKey" (("json", "api_key") :: secret)
                      (VString "sk_test_1234567890");
                field "SubConfig" [("json", "sub_config")] inlineSub;
                field "PublicData" [("json", "public_data")]
                      (VString "this is public")]).
Proof.
  exact (X10_nested_pointer_as_by_value
           testHeap (VPointer (Some 0)) 1 _
           [field "Username" [("json", "username")] (VString "admin");
            field "Password" (("json", "password") :: secret)
                  (VString "super_secret_password");
            field "APIKey" (("json", "api_key") :: secret)
                  (VString "sk_test_1234567890")]
           [field "PublicData" [("json", "public_data")]
                  (VString "this is public")]
           (fst (field "SubConfig" [("json", "sub_config")] (VInt 0)))
           0 [] "config"
           (ex_intro _ 0 (conj eq_refl eq_refl))).
Defined.

(** ** The configuration functions *)

Lemma mapIndex_absent m k : ~ In k (map fst m) -> mapIndex m k = 0%Z.
Proof.
  induction m as [|[k' lv] m IH]; simpl; intros Hn; [reflexivity|].
  destruct (String.eqb_spec k' k) as [->|Hne].
  - elim Hn. now left.
  - apply IH. intros Hin. apply Hn. now right.
Qed.

(** X11.  [SetLogLevel] with a name that is not one of the eight keys of
    [logLevels] does not fail: it sets the global level to the zero value of
    the level type, which is the debug level, exactly as
    [SetLogLevel("debug")] does. *)
Theorem X11_unknown_level_name_sets_debug :
  forall (l : string) (g : Globals),
    ~ In l (map fst logLevels) ->
    GlobalLevel (SetLogLevel l g) = zerolog.DebugLevel
    /\ SetLogLevel l g = SetLogLevel "debug" g.
Proof.
  intros l g Hn. unfold SetLogLevel.
  rewrite (mapIndex_absent logLevels l Hn). split; reflexivity.
Qed.

Lemma X11_witness :
  GlobalLevel (SetLogLevel "warning" someGlobals) = zerolog.DebugLevel
  /\ SetLogLevel "warning" someGlobals = SetLogLevel "debug" someGlobals.
Proof.
  apply X11_unknown_level_name_sets_debug.
  simpl. intros H.
  repeat match goal with
         | H : _ \/ _ |- _ => destruct H
         | H : False |- _ => destruct H
         | H : _ = _ |- _ => discriminate H
         end.
Defined.

(** X12.  Whatever the name, the level [SetLogLevel] sets lies between
    trace and disabled and is never [NoLevel]; and two different names of
    [logLevels] set two different levels. *)
Theorem X12_levels_set_by_name :
  (forall (l : string) (g : Globals),
      (zerolog.TraceLevel <= GlobalLevel (SetLogLevel l g) <= zerolog.Disabled)%Z
      /\ GlobalLevel (SetLogLevel l g) <> zerolog.NoLevel)
  /\
  (forall (a b : string) (g : Globals),
      In a (map fst logLevels) -> In b (map fst logLevels) ->
      a <> b ->
      GlobalLevel (SetLogLevel a g) <> GlobalLevel (SetLogLevel b g)).
Proof.
  split.
  - intros l g. cbv [SetLogLevel GlobalLevel logLevels mapIndex].
    unfold zerolog.TraceLevel, zerolog.DebugLevel, zerolog.InfoLevel,
      zerolog.WarnLevel, zerolog.ErrorLevel, zerolog.FatalLevel,
      zerolog.PanicLevel, zerolog.Disabled, zerolog.NoLevel.
    repeat match goal with
           | |- context [String.eqb ?x l] => destruct (String.eqb x l)
           end; split; lia.
  - intros a b g Ha Hb Hne. simpl in Ha, Hb.
    repeat match goal with
           | H : _ \/ _ |- _ => destruct H
           | H : False |- _ => destruct H
           end; subst; try (now elim Hne); vm_compute; discriminate.
Qed.

Lemma X12_witness :
  In "warn" (map fst logLevels)
  /\ GlobalLevel (SetLogLevel "warn" someGlobals)
     <> GlobalLevel (SetLogLevel "error" someGlobals).
Proof.
  split; [simpl; auto 10|].
  apply (proj2 X12_levels_set_by_name "warn" "error" someGlobals);
    [simpl; auto 10|simpl; auto 10|discriminate].
Defined.

(** X13.  [New] never builds a logger on the nil writer: with [out] nil it
    builds the logger it builds on [os.Stdout], which is also what the
    one-argument [New] of the earlier revision builds.  The logger does not
    depend on the global level set before; it depends on the global time
    format only as a console logger, which keeps the format current at the
    call of [New]. *)
Theorem X13_New_writer_and_globals :
  forall (consoleWriter : bool) (out : Writer) (g : Globals),
    New consoleWriter WNil g = New consoleWriter (WFile os.Stdout) g
    /\ New_v1 consoleWriter g = New consoleWriter WNil g
    /\ logWriter (New consoleWriter out g) <> WNil
    /\ (forall l, New consoleWriter out (SetLogLevel l g)
                  = New consoleWriter out g)
    /\ (forall format,
          New consoleWriter out (SetTimeFormat format g)
          = New consoleWriter out g
          <-> consoleWriter = false \/ format = TimeFieldFormat g).
Proof.
  intros c out g. split; [reflexivity|]. split; [reflexivity|].
  split; [unfold New; destruct c, out; discriminate|].
  split; [reflexivity|].
  intros format. unfold New, SetTimeFormat. destruct c; simpl; split.
  - intros H. right. destruct out; injection H as H; exact H.
  - intros [H| ->]; [discriminate|reflexivity].
  - now left.
  - reflexivity.
Qed.

(** ** Keys *)

Lemma declaredBefore_irrefl a : ~ declaredBefore a a.
Proof.
  induction a as [|i a IH]; simpl; [auto|].
  intros [H|[_ H]]; [lia|auto].
Qed.

Lemma string_app_inv_l (a b c : string) : a ++ b = a ++ c -> b = c.
Proof.
  induction a as [|ch a IH]; simpl; [auto|].
  intros H. injection H as H. auto.
Qed.

Lemma dotFree_split n :
  forall n' r r',
    dotFree n = true -> dotFree n' = true ->
    (r = "" \/ exists t, r = "." ++ t) ->
    (r' = "" \/ exists t, r' = "." ++ t) ->
    n ++ r = n' ++ r' -> n = n' /\ r = r'.
Proof.
  induction n as [|c n IH]; intros n' r r' Hn Hn' Hr Hr' Heq.
  - destruct n' as [|c' n']; [auto|]. exfalso.
    simpl in Heq, Hn'. apply andb_true_iff in Hn' as [Hc _].
    destruct Hr as [->|(t & ->)]; [discriminate|].
    simpl in Heq. injection Heq as <- _. discriminate.
  - destruct n' as [|c' n'].
    + exfalso. simpl in Heq, Hn. apply andb_true_iff in Hn as [Hc _].
      destruct Hr' as [->|(t & ->)]; [discriminate|].
      simpl in Heq. injection Heq as -> _. discriminate.
    + simpl in Heq, Hn, Hn'. injection Heq as -> Heq.
      apply andb_true_iff in Hn as [_ Hn].
      apply andb_true_iff in Hn' as [_ Hn'].
      destruct (IH n' r r' Hn Hn' Hr Hr' Heq) as [-> ->]. auto.
Qed.

Lemma dotted_shape ns : dotted ns = "" \/ exists t, dotted ns = "." ++ t.
Proof. destruct ns as [|n ns]; simpl; eauto. Qed.

Lemma dotted_inj ns :
  forall ns',
    Forall (fun n => dotFree n = true) ns ->
    Forall (fun n => dotFree n = true) ns' ->
    dotted ns = dotted ns' -> ns = ns'.
Proof.
  induction ns as [|n ns IH]; intros [|n' ns'] H H' Heq; simpl in Heq;
    try discriminate; [reflexivity|].
  injection Heq as Heq.
  inversion H as [|? ? Hn Hns]; inversion H' as [|? ? Hn' Hns']; subst.
  destruct (dotFree_split n n' _ _ Hn Hn' (dotted_shape ns) (dotted_shape ns')
              Heq) as [-> Hrest].
  f_equal. now apply IH.
Qed.

Lemma wellNamed_field h v k fs fl f g :
  wellNamed h v ->
  asStruct k h v = Ret (Val (VStruct fs) fl, true) ->
  In (f, g) fs ->
  wellNamed h (Val g (fieldFlag fl f)).
Proof.
  intros Hw Hs Hin fs' fl' Hr. apply (Hw fs' fl').
  destruct (asStruct_reach _ _ _ _ Hs) as [Hreach _].
  eapply rt_trans; [exact Hreach|].
  eapply rt_trans; [apply rt_step, (refers_field h fs fl f g Hin)|exact Hr].
Qed.

Lemma asStruct_same k k' h v fs fl fs' fl' :
  asStruct k h v = Ret (Val (VStruct fs) fl, true) ->
  asStruct k' h v = Ret (Val (VStruct fs') fl', true) ->
  fs = fs' /\ fl = fl'.
Proof.
  intros H H'.
  assert (E : asStruct k h v = asStruct k' h v)
    by (apply asStruct_agree; [rewrite H|rewrite H']; auto with outcome).
  rewrite H, H' in E. injection E as -> ->. auto.
Qed.

Lemma wellNamed_index h v k fs fl i j f g f' g' :
  wellNamed h v ->
  asStruct k h v = Ret (Val (VStruct fs) fl, true) ->
  nth_error fs i = Some (f, g) -> nth_error fs j = Some (f', g') ->
  Name f = Name f' -> i = j.
Proof.
  intros Hw Hs Hi Hj Hn.
  destruct (asStruct_reach _ _ _ _ Hs) as [Hreach _].
  destruct (Hw fs fl Hreach) as [Hnd _].
  rewrite NoDup_nth_error in Hnd. apply Hnd.
  - rewrite length_map. apply nth_error_Some. now rewrite Hi.
  - rewrite !nth_error_map, Hi, Hj. simpl. now rewrite Hn.
Qed.

(** Two leaves with the same names are at the same position. *)
Lemma leafAt_names_inj h v idx l :
  leafAt h v idx l ->
  forall idx' l',
    wellNamed h v -> leafAt h v idx' l' ->
    leafNames l = leafNames l' -> idx = idx'.
Proof.
  induction 1 as [v k fs fl i f g Hs Hi Hd
                 |v k fs fl i f g idx l Hs Hi Hbelow IH];
    intros idx' l' Hw H' Hn;
    inversion H' as [v' k' fs' fl' j f' g' Hs' Hj Hd'
                    |v' k' fs' fl' j f' g' idx2 l2 Hs' Hj Hbelow']; subst;
    destruct (asStruct_same _ _ _ _ _ _ _ _ Hs Hs') as [<- <-];
    simpl in Hn.
  - injection Hn as Hn.
    now rewrite (wellNamed_index h v k fs fl i j f g f' g' Hw Hs Hi Hj Hn).
  - injection Hn as _ Hn. symmetry in Hn.
    now elim (leaves_names_nonempty _ _ _ _ Hbelow').
  - injection Hn as _ Hn.
    now elim (leaves_names_nonempty _ _ _ _ Hbelow).
  - injection Hn as Hn Hrest.
    pose proof (wellNamed_index h v k fs fl i j f g f' g' Hw Hs Hi Hj Hn) as <-.
    rewrite Hi in Hj. injection Hj as <- <-.
    f_equal. apply (IH idx2 l2); try assumption.
    eapply wellNamed_field; eauto. eapply nth_error_In; eauto.
Qed.

Lemma leafAt_names_dotFree h v idx l :
  leafAt h v idx l -> wellNamed h v ->
  Forall (fun n => dotFree n = true) (leafNames l).
Proof.
  induction 1 as [v k fs fl i f g Hs Hi Hd
                 |v k fs fl i f g idx l Hs Hi Hbelow IH]; intros Hw;
    destruct (asStruct_reach _ _ _ _ Hs) as [Hreach _];
    destruct (Hw fs fl Hreach) as [_ Hdf];
    rewrite Forall_forall in Hdf;
    pose proof (Hdf (f, g) (nth_error_In _ _ Hi)) as Hf; simpl in Hf; simpl.
  - repeat constructor. exact Hf.
  - constructor; [exact Hf|]. apply IH.
    eapply wellNamed_field; eauto. eapply nth_error_In; eauto.
Qed.

Lemma keys_NoDup h v root idxs ls :
  wellNamed h v ->
  Forall2 (leafAt h v) idxs ls ->
  StronglySorted declaredBefore idxs ->
  NoDup (map fieldKey (map (entry root) ls)).
Proof.
  intros Hw Hf. rewrite map_fieldKey_entry.
  induction Hf as [|idx l idxs ls Hl Hf IH]; intros Hs; simpl; constructor.
  - inversion Hs as [|? ? _ Hall]; subst.
    intros Hin. apply in_map_iff in Hin as (l' & Hk & Hin').
    apply string_app_inv_l in Hk.
    assert (exists idx', In idx' idxs /\ leafAt h v idx' l') as (idx' & Hi' & Hl').
    { clear - Hf Hin'. induction Hf as [|a b la lb Hab _ IHf]; [destruct Hin'|].
      destruct Hin' as [->|Hin'].
      - exists a. split; [now left|assumption].
      - destruct (IHf Hin') as (c & Hc & Hlc). exists c. split; [now right|assumption]. }
    rewrite Forall_forall in Hall. specialize (Hall idx' Hi').
    assert (idx' = idx).
    { apply (leafAt_names_inj h v idx' l' Hl' idx l Hw Hl).
      apply dotted_inj; try assumption.
      - exact (leafAt_names_dotFree h v idx' l' Hl' Hw).
      - exact (leafAt_names_dotFree h v idx l Hl Hw). }
    subst. exact (declaredBefore_irrefl _ Hall).
  - apply IH. now inversion Hs.
Qed.

(** X14.  For an acyclic value whose structs follow the rules of Go for
    field names (identifiers, no two alike in a struct), no two entries the
    walk appends have the same key: every key names one leaf field. *)
Theorem X14_keys_are_distinct :
  forall (h : Heap) (v : GoValue),
    acyclic h (ValueOf v) ->
    wellNamed h (ValueOf v) ->
    exists (fuel : nat) (ls : list Leaf),
      leaves fuel h (ValueOf v) = Ret ls
      /\ (forall fuel' ctx root,
            fuel <= fuel' ->
            WithCensoredSecretFields fuel' h ctx root v
            = if forallb readable ls
              then Ret (ctx ++ map (entry root) ls)%list
              else Panic InterfacePanic)
      /\ (forall root, NoDup (map fieldKey (map (entry root) ls))).
Proof.
  intros h v Hacc Hw.
  destruct (censorFields_acyclic h _ Hacc) as (fuel & ls & Hl & Hwalk).
  exists fuel, ls. split; [assumption|]. split.
  - intros m ctx root Hle. now apply Hwalk.
  - intros root.
    destruct (leaves_positions fuel h _ ls Hl) as (idxs & Hf & Hs).
    exact (keys_NoDup h _ root idxs ls Hw Hf Hs).
Qed.

Lemma withEmbedded_wellNamed :
  wellNamed emptyHeap (ValueOf (VStruct withEmbedded)).
Proof.
  intros fs fl Hr.
  apply clos_rt_rt1n in Hr. cbv [withEmbedded embedded field ValueOf] in Hr.
  walk_reach Hr 4;
    (split; [repeat constructor; simpl; intuition discriminate
            |repeat constructor]).
Defined.

Lemma X14_witness :
  NoDup (map fieldKey [zerolog.FAny "r.base.ID" (VInt 7);
                       zerolog.FAny "r.Name" (VString "n")]).
Proof.
  destruct (X14_keys_are_distinct emptyHeap (VStruct withEmbedded)
              withEmbedded_acyclic withEmbedded_wellNamed)
    as (fuel & ls & Hl & _ & Hkeys).
  pose proof (leaves_det fuel 3 emptyHeap _ ls _ Hl eq_refl) as ->.
  exact (Hkeys "r").
Defined.
